(** * envy: typed environment variables with deferred binding

    A shallow embedding of [envy.go] and a verification of the
    behaviour its documentation promises.

    - Go strings are byte strings: [string].
    - [int64], [uint64], [int], [uint] and [time.Duration] are integers
      ([Z]) with the wrap-around of conversions written out.
    - The process environment is a finite map from names to values;
      [os.LookupEnv] is its lookup.
    - Destinations ([*T]) are locations of a store of typed cells.
    - The package-level queue [vars] holds closures; a closure is
      represented by the variables it captures, and calling it runs
      [setVar] on them.
    - Functions of the package run in a small monad that threads the
      package state, may panic, and records what is done: the
      environment lookups, the stores through destinations, and the
      closure calls, each with what was done during the call. *)

From Stdlib Require Import ZArith Ascii String List Floats.PrimFloat.
From stdpp Require Import base option list strings gmap.

Local Open Scope string_scope.
Local Open Scope list_scope.
Local Open Scope Z_scope.

(** ** The Go standard library, as far as envy uses it *)

(** [strconv.ErrSyntax] and [strconv.ErrRange]. *)
Inductive sentinel := ErrSyntax | ErrRange.

(** The values of the interface [error] that occur: the
    [*strconv.NumError] of the parsing functions and the
    [*fmt.wrapError] that [fmt.Errorf] builds for the verb [%w]. *)
Inductive error :=
| NumError (Func Num : string) (Err : sentinel)
| wrapError (msg : string) (err : error).

(** [strconv.IntSize]: the width of [int] and [uint] on the platform. *)
Inductive wordSize := W32 | W64.

(** What the model takes from outside the package without defining it:
    the platform's word size, [strconv.Quote] (used by the text of a
    [NumError]) and [strconv.ParseFloat] at 64 bits. *)
Class Runtime := {
  IntSize : wordSize;
  Quote : string -> string;
  ParseFloat : string -> float * option error
}.

Definition bits (w : wordSize) : Z :=
  match w with W32 => 32 | W64 => 64 end.

Definition byte (c : ascii) : Z := Z.of_N (N_of_ascii c).

Definition len (s : string) : Z := Z.of_nat (String.length s).

(** Conversions between integer types keep the low bits. *)
Definition to_unsigned (width n : Z) : Z := n mod 2 ^ width.

Definition to_signed (width n : Z) : Z :=
  let m := n mod 2 ^ width in
  if m <? 2 ^ (width - 1) then m else m - 2 ^ width.

Module strconv.

Definition sentinel_Error (e : sentinel) : string :=
  match e with
  | ErrSyntax => "invalid syntax"
  | ErrRange => "value out of range"
  end.

Definition syntaxError (fn str : string) : error := NumError fn str ErrSyntax.

Definition rangeError (fn str : string) : error := NumError fn str ErrRange.

(** The [bitSize] arguments envy passes, directly or through [Atoi]:
    [0] (the width of [int]) and [64]. The base is always 10, so the
    base and bit-size errors of the library cannot arise. *)
Inductive bitSize := BitsInt | Bits64.

Definition maxUint64 : Z := 2 ^ 64 - 1.

Section WithRuntime.
Context {rt : Runtime}.

Definition width (b : bitSize) : Z :=
  match b with BitsInt => bits IntSize | Bits64 => 64 end.

(** The digit loop of [ParseUint] in base 10: [n] is the value read so
    far; the result is the value returned and the sentinel, if any. *)
Fixpoint digits (maxVal : Z) (s : string) (n : Z) : Z * option sentinel :=
  match s with
  | EmptyString => (n, None)
  | String c rest =>
      if (byte "0" <=? byte c) && (byte c <=? byte "9") then
        let d := byte c - byte "0" in
        if maxUint64 / 10 + 1 <=? n then (maxVal, Some ErrRange)
        else
          let n10 := to_unsigned 64 (n * 10) in
          let n1 := to_unsigned 64 (n10 + d) in
          if (n1 <? n10) || (maxVal <? n1) then (maxVal, Some ErrRange)
          else digits maxVal rest n1
      else (0, Some ErrSyntax)
  end.

(** [ParseUint(s, 10, bitSize)]. *)
Definition ParseUint (s : string) (b : bitSize) : Z * option error :=
  if String.eqb s "" then (0, Some (syntaxError "ParseUint" s))
  else
    let maxVal := 2 ^ width b - 1 in
    match digits maxVal s 0 with
    | (n, None) => (n, None)
    | (n, Some e) => (n, Some (NumError "ParseUint" s e))
    end.

(** [ParseInt(s, 10, bitSize)]. *)
Definition ParseInt (s : string) (b : bitSize) : Z * option error :=
  match s with
  | EmptyString => (0, Some (syntaxError "ParseInt" s))
  | String c rest =>
      let s0 := s in
      let neg := Ascii.eqb c "-" in
      let s := if Ascii.eqb c "+" || Ascii.eqb c "-" then rest else s in
      match ParseUint s b with
      | (_, Some (NumError _ _ ErrSyntax)) => (0, Some (syntaxError "ParseInt" s0))
      | (un, _) =>
          let cutoff := 2 ^ (width b - 1) in
          if negb neg && (cutoff <=? un) then
            (to_signed 64 (cutoff - 1), Some (rangeError "ParseInt" s0))
          else if neg && (cutoff <? un) then
            (to_signed 64 (- cutoff), Some (rangeError "ParseInt" s0))
          else
            let n := to_signed 64 un in
            (if neg then to_signed 64 (- n) else n, None)
      end
  end.

(** The loop of the fast path of [Atoi]. *)
Fixpoint atoi_digits (s : string) (n : Z) : option Z :=
  match s with
  | EmptyString => Some n
  | String ch rest =>
      let ch := to_unsigned 8 (byte ch - byte "0") in
      if 9 <? ch then None else atoi_digits rest (n * 10 + ch)
  end.

(** The slow path of [Atoi]: [ParseInt] with the function name replaced
    in the error. *)
Definition atoi_slow (s : string) : Z * option error :=
  match ParseInt s BitsInt with
  | (i64, Some (NumError _ num e)) =>
      (to_signed (bits IntSize) i64, Some (NumError "Atoi" num e))
  | (i64, err) => (to_signed (bits IntSize) i64, err)
  end.

Definition Atoi (s : string) : Z * option error :=
  let sLen := len s in
  if (bits IntSize =? 32) && ((0 <? sLen) && (sLen <? 10))
     || (bits IntSize =? 64) && ((0 <? sLen) && (sLen <? 19)) then
    match s with
    | String c rest =>
        let s0 := s in
        let signed := Ascii.eqb c "-" || Ascii.eqb c "+" in
        let s := if signed then rest else s in
        if signed && (len s <? 1) then (0, Some (syntaxError "Atoi" s0))
        else
          match atoi_digits s 0 with
          | None => (0, Some (syntaxError "Atoi" s0))
          | Some n => (if Ascii.eqb c "-" then - n else n, None)
          end
    | EmptyString => atoi_slow s
    end
  else atoi_slow s.

Definition ParseBool (str : string) : bool * option error :=
  if bool_decide (str ∈ ["1"; "t"; "T"; "true"; "TRUE"; "True"]) then (true, None)
  else if bool_decide (str ∈ ["0"; "f"; "F"; "false"; "FALSE"; "False"]) then (false, None)
  else (false, Some (syntaxError "ParseBool" str)).

End WithRuntime.

End strconv.

(** [strconv.NumError.Error] and [fmt.wrapError.Error]. *)
Definition Error {rt : Runtime} (e : error) : string :=
  match e with
  | NumError fn num err =>
      "strconv." +:+ fn +:+ ": parsing " +:+ Quote num +:+ ": "
        +:+ strconv.sentinel_Error err
  | wrapError msg _ => msg
  end.

Module time.

(** The units of [time.Duration], a count of nanoseconds. *)
Definition Nanosecond : Z := 1.
Definition Microsecond : Z := 1000 * Nanosecond.
Definition Millisecond : Z := 1000 * Microsecond.
Definition Second : Z := 1000 * Millisecond.

End time.

Module fmt.

(** [fmt.Errorf("failed to parse %s as %s: %w", variable, typeName, err)],
    the one format envy uses. *)
Definition Errorf_failed_to_parse {rt : Runtime} (variable typeName : string)
    (err : error) : error :=
  wrapError
    ("failed to parse " +:+ variable +:+ " as " +:+ typeName +:+ ": " +:+ Error err)
    err.

End fmt.

(** ** Types and values *)

(** The types the package instantiates its generic functions at. *)
Inductive kind :=
| KString | KInt | KInt64 | KUint | KUint64 | KFloat64 | KBool | KDuration.

Definition goType (T : kind) : Type :=
  match T with
  | KString => string
  | KInt | KInt64 | KUint | KUint64 | KDuration => Z
  | KFloat64 => float
  | KBool => bool
  end.

(** [reflect.TypeOf(zero).String()] for [var zero T]. *)
Definition typeName (T : kind) : string :=
  match T with
  | KString => "string"
  | KInt => "int"
  | KInt64 => "int64"
  | KUint => "uint"
  | KUint64 => "uint64"
  | KFloat64 => "float64"
  | KBool => "bool"
  | KDuration => "time.Duration"
  end.

(** The content of a cell of the store. *)
Inductive val :=
| VString (s : string)
| VInt (i : Z)
| VInt64 (i : Z)
| VUint (u : Z)
| VUint64 (u : Z)
| VFloat64 (f : float)
| VBool (b : bool)
| VDuration (d : Z).

Definition box (T : kind) : goType T -> val :=
  match T with
  | KString => VString
  | KInt => VInt
  | KInt64 => VInt64
  | KUint => VUint
  | KUint64 => VUint64
  | KFloat64 => VFloat64
  | KBool => VBool
  | KDuration => VDuration
  end.

(** [type caster[T any] func(string) (T, error)]; a nil error is [None]. *)
Definition caster (T : Type) : Type := string -> T * option error.

(** A destination [*T]: a valid (non-nil) pointer. *)
Abbreviation loc := positive.

(** ** State, panics and the record of effects *)

Section Machine.
Context {closure : Type}.

(** The state the package works on: the process environment, the cells
    behind the destinations and the package variable [vars]. *)
Record State := mkState {
  environ : gmap string string;
  heap : gmap loc val;
  vars : list closure
}.

#[local] Unset Elimination Schemes.
Inductive event :=
| LookupEnv (name : string)
| Store (addr : loc) (v : val)
| Invoke (fn : closure) (body : list event).
#[local] Set Elimination Schemes.

Inductive outcome (A : Type) :=
| Returned (a : A)
| Panicked (e : error).

(** A run: what was done, the state it ended in, and how it ended. *)
Record run (A : Type) := mkRun {
  trace : list event;
  final : State;
  result : outcome A
}.

Definition M (A : Type) : Type := State -> run A.

End Machine.

Arguments State : clear implicits.
Arguments event : clear implicits.
Arguments run : clear implicits.
Arguments M : clear implicits.
Arguments Returned {A} a.
Arguments Panicked {A} e.
Arguments mkRun {closure A} trace final result.
Arguments trace {closure A} r.
Arguments final {closure A} r.
Arguments result {closure A} r.

Section Monad.
Context {closure : Type}.
Local Abbreviation M := (M closure).

Definition ret {A} (a : A) : M A :=
  fun σ => mkRun [] σ (Returned a).

Definition bind {A B} (m : M A) (k : A -> M B) : M B :=
  fun σ =>
    let r := m σ in
    match result r with
    | Returned a =>
        let r' := k a (final r) in
        mkRun (trace r ++ trace r') (final r') (result r')
    | Panicked e => mkRun (trace r) (final r) (Panicked e)
    end.

(** [panic(e)]. *)
Definition panic {A} (e : error) : M A :=
  fun σ => mkRun [] σ (Panicked e).

(** [os.LookupEnv(name)]. *)
Definition os_LookupEnv (name : string) : M (string * bool) :=
  fun σ =>
    mkRun [LookupEnv name] σ
      (Returned match environ σ !! name with
                | Some v => (v, true)
                | None => ("", false)
                end).

(** [*addr = v]. *)
Definition store (T : kind) (addr : loc) (v : goType T) : M unit :=
  fun σ =>
    mkRun [Store addr (box T v)]
      (mkState (environ σ) (<[addr := box T v]> (heap σ)) (vars σ))
      (Returned tt).

End Monad.

#[global] Instance M_ret {closure} : MRet (M closure) := @ret closure.
#[global] Instance M_bind {closure} : MBind (M closure) :=
  fun A B k m => bind m k.

(** ** The package *)

Section Envy.
Context {rt : Runtime}.

Section Primitive.
Context {closure : Type}.
Local Abbreviation M := (M closure).

Definition failCast (T : kind) (variable : string) (err : error) : M unit :=
  panic (fmt.Errorf_failed_to_parse variable (typeName T) err).

Definition value (T : kind) (name : string) (value : goType T)
    (convert : caster (goType T)) : M (goType T) :=
  '(s, ok) ← os_LookupEnv name;
  if negb ok then mret value
  else
    let '(v, err) := convert s in
    (match err with Some e => failCast T name e | None => mret tt end);;
    mret v.

Definition setVar (T : kind) (addr : loc) (name : string)
    (defaultValue : goType T) (cast : caster (goType T)) : M unit :=
  '(v, ok) ← os_LookupEnv name;
  if negb ok then store T addr defaultValue
  else
    let '(cv, err) := cast v in
    (match err with Some e => failCast T name e | None => mret tt end);;
    store T addr cv.

(** [for _, fn := range vars { fn() }], for any meaning [call] of calling
    a closure. The slice [vars] is read once, before the first call: a
    call that appends to [vars] does not lengthen the loop. *)
Section Trigger.
Variable call : closure -> M unit.

Definition invoke (fn : closure) : M unit :=
  fun σ =>
    let r := call fn σ in
    mkRun [Invoke fn (trace r)] (final r) (result r).

Fixpoint range (fns : list closure) : M unit :=
  match fns with
  | [] => mret tt
  | fn :: rest => invoke fn;; range rest
  end.

Definition ParseWith : M unit :=
  fun σ => range (vars σ) σ.

End Trigger.

End Primitive.

(** *** Converters *)

Definition castString (s : string) : string * option error := (s, None).

Definition castInt64 (s : string) : Z * option error :=
  match strconv.ParseInt s strconv.Bits64 with
  | (_, Some err) => (0, Some err)
  | (i, None) => (i, None)
  end.

Definition castUint64 (s : string) : Z * option error :=
  match strconv.ParseUint s strconv.Bits64 with
  | (_, Some err) => (0, Some err)
  | (i, None) => (i, None)
  end.

Definition castUint (s : string) : Z * option error :=
  match castUint64 s with
  | (_, Some err) => (0, Some err)
  | (i, None) => (to_unsigned (bits IntSize) i, None)
  end.

Definition castFloat64 (s : string) : float * option error :=
  match ParseFloat s with
  | (_, Some err) => (0%float, Some err)
  | (f, None) => (f, None)
  end.

(** [time.Duration] is [int64] under another name: the conversion
    [time.Duration(i)] keeps the value. *)
Definition castDuration (s : string) : Z * option error :=
  match castInt64 s with
  | (_, Some err) => (0, Some err)
  | (i, None) => (i, None)
  end.

(** The converter the accessor and the binder of each type pass on. *)
Definition converter (T : kind) : caster (goType T) :=
  match T with
  | KString => castString
  | KInt => strconv.Atoi
  | KInt64 => castInt64
  | KUint => castUint
  | KUint64 => castUint64
  | KFloat64 => castFloat64
  | KBool => strconv.ParseBool
  | KDuration => castDuration
  end.

(** *** Immediate accessors *)

Section Accessors.
Context {closure : Type}.
Local Abbreviation M := (M closure).

Definition String (name defaultValue : string) : M string :=
  value KString name defaultValue castString.

Definition Int (name : string) (defaultValue : Z) : M Z :=
  value KInt name defaultValue strconv.Atoi.

Definition Int64 (name : string) (defaultValue : Z) : M Z :=
  value KInt64 name defaultValue castInt64.

Definition Uint (name : string) (defaultValue : Z) : M Z :=
  value KUint name defaultValue castUint.

Definition Uint64 (name : string) (defaultValue : Z) : M Z :=
  value KUint64 name defaultValue castUint64.

Definition Float64 (name : string) (defaultValue : float) : M float :=
  value KFloat64 name defaultValue castFloat64.

Definition Bool (name : string) (defaultValue : bool) : M bool :=
  value KBool name defaultValue strconv.ParseBool.

Definition Duration (name : string) (defaultValue : Z) : M Z :=
  value KDuration name defaultValue castDuration.

(** The accessor of each type. *)
Definition accessor (T : kind) : string -> goType T -> M (goType T) :=
  match T with
  | KString => String
  | KInt => Int
  | KInt64 => Int64
  | KUint => Uint
  | KUint64 => Uint64
  | KFloat64 => Float64
  | KBool => Bool
  | KDuration => Duration
  end.

End Accessors.

(** *** The queue and the deferred binders *)

(** The function literal of [queueSetVar],
    [func() { setVar(addr, name, defaultValue, cast) }], as the variables
    it captures. *)
Record closure := mkClosure {
  fn_T : kind;
  fn_addr : loc;
  fn_name : string;
  fn_defaultValue : goType fn_T;
  fn_cast : caster (goType fn_T)
}.

Local Abbreviation M := (M closure).

(** Calling the function literal: its body. *)
Definition call (fn : closure) : M unit :=
  setVar (fn_T fn) (fn_addr fn) (fn_name fn) (fn_defaultValue fn) (fn_cast fn).

Definition queueSetVar (T : kind) (addr : loc) (name : string)
    (defaultValue : goType T) (cast : caster (goType T)) : M unit :=
  fun σ =>
    mkRun []
      (mkState (environ σ) (heap σ)
         (vars σ ++ [mkClosure T addr name defaultValue cast]))
      (Returned tt).

Definition StringVar (addr : loc) (name defaultValue : string) : M unit :=
  queueSetVar KString addr name defaultValue castString.

Definition IntVar (addr : loc) (name : string) (defaultValue : Z) : M unit :=
  queueSetVar KInt addr name defaultValue strconv.Atoi.

Definition Int64Var (addr : loc) (name : string) (defaultValue : Z) : M unit :=
  queueSetVar KInt64 addr name defaultValue castInt64.

Definition UintVar (addr : loc) (name : string) (defaultValue : Z) : M unit :=
  queueSetVar KUint addr name defaultValue castUint.

Definition Uint64Var (addr : loc) (name : string) (defaultValue : Z) : M unit :=
  queueSetVar KUint64 addr name defaultValue castUint64.

Definition Float64Var (addr : loc) (name : string) (defaultValue : float) : M unit :=
  queueSetVar KFloat64 addr name defaultValue castFloat64.

Definition BoolVar (addr : loc) (name : string) (defaultValue : bool) : M unit :=
  queueSetVar KBool addr name defaultValue strconv.ParseBool.

Definition DurationVar (addr : loc) (name : string) (defaultValue : Z) : M unit :=
  queueSetVar KDuration addr name defaultValue castDuration.

Definition Parse : M unit := ParseWith call.

(** The binder of each type. *)
Definition binder (T : kind) : loc -> string -> goType T -> M unit :=
  match T with
  | KString => StringVar
  | KInt => IntVar
  | KInt64 => Int64Var
  | KUint => UintVar
  | KUint64 => Uint64Var
  | KFloat64 => Float64Var
  | KBool => BoolVar
  | KDuration => DurationVar
  end.

(** A call of a deferred binder, as a client writes it, and a sequence
    of such calls. *)
Record registration := Register {
  reg_T : kind;
  reg_addr : loc;
  reg_name : string;
  reg_defaultValue : goType reg_T
}.

Definition register (c : registration) : M unit :=
  binder (reg_T c) (reg_addr c) (reg_name c) (reg_defaultValue c).

Fixpoint registerAll (cs : list registration) : M unit :=
  match cs with
  | [] => mret tt
  | c :: rest => register c;; registerAll rest
  end.

(** The closure a binder call puts in the queue. *)
Definition pending (c : registration) : closure :=
  mkClosure (reg_T c) (reg_addr c) (reg_name c) (reg_defaultValue c)
    (converter (reg_T c)).

End Envy.

(** ** Reading a run *)

Section Observations.
Context {closure : Type}.

(** The closures a run calls itself, in the order of the calls (not
    the ones called during those calls). *)
Definition invoked (t : list (event closure)) : list closure :=
  omap (fun e => match e with Invoke fn _ => Some fn | _ => None end) t.

(** The stores made, in order, during calls included. *)
Fixpoint storesIn (e : event closure) : list (loc * val) :=
  match e with
  | LookupEnv _ => []
  | Store a v => [(a, v)]
  | Invoke _ body => flat_map storesIn body
  end.

Definition stores (t : list (event closure)) : list (loc * val) :=
  flat_map storesIn t.

(** The environment variables looked up, in order, during calls
    included. *)
Fixpoint lookupsIn (e : event closure) : list string :=
  match e with
  | LookupEnv n => [n]
  | Store _ _ => []
  | Invoke _ body => flat_map lookupsIn body
  end.

Definition lookups (t : list (event closure)) : list string :=
  flat_map lookupsIn t.

(** How often a run stores through [l]. *)
Definition storesTo (l : loc) (t : list (event closure)) : nat :=
  length (filter (fun aw => aw.1 = l) (stores t)).

End Observations.

(** What lookup-or-default gives for a queued binding in an
    environment: the value to assign, or the converter's error. *)
Definition resolve (env : gmap string string) (fn : closure) : goType (fn_T fn) + error :=
  match env !! fn_name fn with
  | None => inl (fn_defaultValue fn)
  | Some s =>
      match fn_cast fn s with
      | (cv, None) => inl cv
      | (_, Some e) => inr e
      end
  end.

Definition resolves (env : gmap string string) (fn : closure) : bool :=
  match resolve env fn with inl _ => true | inr _ => false end.

(** The cell content a binding assigns when its resolution succeeds. *)
Definition assigned (env : gmap string string) (fn : closure) : val :=
  match resolve env fn with
  | inl v => box (fn_T fn) v
  | inr _ => box (fn_T fn) (fn_defaultValue fn)
  end.

(** The store after the bindings [fns] have assigned, one after the
    other. *)
Definition assignAll (env : gmap string string) (fns : list closure)
    (h : gmap loc val) : gmap loc val :=
  foldl (fun h fn => <[fn_addr fn := assigned env fn]> h) h fns.

(** How many bindings of a queue have destination [l]. *)
Definition bindingsTo (l : loc) (fns : list closure) : nat :=
  length (filter (fun fn => fn_addr fn = l) fns).

(** What Parse records for one binding: the call, and during it the
    lookup of the binding's variable followed, when the binding
    resolves, by the store of the value through its destination. *)
Definition eventOf (env : gmap string string) (fn : closure) : event closure :=
  Invoke fn
    (LookupEnv (fn_name fn)
       :: (if resolves env fn then [Store (fn_addr fn) (assigned env fn)] else [])).

(** ** Platforms for the examples

    Only the word size matters in the examples. [strconv.Quote] is given
    as it is on printable ASCII without quote or backslash (the string
    between double quotes); [strconv.ParseFloat], which no example
    calls, is a function that rejects its input. *)

Definition quoteASCII (s : string) : string :=
  String.String (ascii_of_nat 34)
    (s +:+ String.String (ascii_of_nat 34) EmptyString).

Definition rejectFloat (s : string) : float * option error :=
  (0%float, Some (NumError "ParseFloat" s ErrSyntax)).

Definition amd64 : Runtime :=
  {| IntSize := W64; Quote := quoteASCII; ParseFloat := rejectFloat |}.

Definition i386 : Runtime :=
  {| IntSize := W32; Quote := quoteASCII; ParseFloat := rejectFloat |}.

(** ** Example programs *)

Module Ex.

(** Two destinations and a fresh process: no cell written, an empty
    queue. *)
Definition A : loc := 1%positive.
Definition B : loc := 2%positive.

Definition fresh (env : gmap string string) : State closure :=
  mkState env ∅ [].

(** [IntVar(&A, "FOO", 1); IntVar(&B, "BAR", 2)]. *)
Definition twoInts : list registration :=
  [Register KInt A "FOO" 1; Register KInt B "BAR" 2].

(** The state in which Parse is called after [twoInts], in a process
    started with [FOO=abc]. *)
Definition fooNotANumber : State closure :=
  final (registerAll (rt := amd64) twoInts (fresh {["FOO" := "abc"]})).

(** The same, in a process started with [FOO=10]. *)
Definition fooIsTen : State closure :=
  final (registerAll (rt := amd64) twoInts (fresh {["FOO" := "10"]})).

(** [IntVar(&A, "LOW", 1); IntVar(&A, "HIGH", 2)]: one destination bound
    twice, in a process that sets neither variable. *)
Definition boundTwice : State closure :=
  final (registerAll (rt := amd64)
           [Register KInt A "LOW" 1; Register KInt A "HIGH" 2] (fresh ∅)).

(** [IntVar(&A, "LOW", 1); IntVar(&A, "HIGH", 2); IntVar(&B, "PORT", 0);
    IntVar(&A, "LAST", 4)] in a process started with [PORT=abc], the
    cell of [A] holding 0. *)
Definition sharedThenFailure : State closure :=
  final (registerAll (rt := amd64)
           [Register KInt A "LOW" 1; Register KInt A "HIGH" 2;
            Register KInt B "PORT" 0; Register KInt A "LAST" 4]
           (mkState {["PORT" := "abc"]} {[A := VInt 0]} [])).

(** [BoolVar(&A, "DEBUG", false); StringVar(&B, "HOST", "localhost")] in
    a process started with [DEBUG=maybe]. *)
Definition debugMaybe : State closure :=
  final (registerAll (rt := amd64)
           [Register KBool A "DEBUG" false; Register KString B "HOST" "localhost"]
           (fresh {["DEBUG" := "maybe"]})).

(** Closures of a client inside the package (only there can a closure
    other than the function literal of [queueSetVar] reach the queue):
    a plain binding, and one that appends a further binding to the
    queue before it assigns. *)
Inductive job :=
| Plain (fn : closure)
| Registering (fn more : closure).

Definition bindingOf (j : job) : closure :=
  match j with Plain fn | Registering fn _ => fn end.

Definition enqueue (j : job) : M job unit :=
  fun σ => mkRun [] (mkState (environ σ) (heap σ) (vars σ ++ [j])) (Returned tt).

Definition run (j : job) : M job unit :=
  let fn := bindingOf j in
  (match j with
   | Plain _ => mret tt
   | Registering _ more => enqueue (Plain more)
   end);;
  setVar (rt := amd64) (fn_T fn) (fn_addr fn) (fn_name fn) (fn_defaultValue fn) (fn_cast fn).

(** A queue holding one registering closure. *)
Definition selfExtending : State job :=
  mkState ∅ ∅
    [Registering (mkClosure KInt A "FOO" 1 (strconv.Atoi (rt := amd64)))
       (mkClosure KInt B "BAR" 2 (strconv.Atoi (rt := amd64)))].

End Ex.

(** ** Decimal literals and the ranges of the integer types *)

Definition isDigit (c : ascii) : bool :=
  (byte "0" <=? byte c) && (byte c <=? byte "9").

Fixpoint allDigits (s : string) : bool :=
  match s with
  | EmptyString => true
  | String.String c rest => isDigit c && allDigits rest
  end.

(** The number a string of decimal digits denotes, read after [n]. *)
Fixpoint decimalFrom (n : Z) (s : string) : Z :=
  match s with
  | EmptyString => n
  | String.String c rest => decimalFrom (n * 10 + (byte c - byte "0")) rest
  end.

Definition decimal (s : string) : Z := decimalFrom 0 s.

(** The integer a signed decimal literal denotes: an optional sign
    followed by at least one digit, and nothing else. *)
Definition literal (s : string) : option Z :=
  match s with
  | EmptyString => None
  | String.String c rest =>
      let body := if Ascii.eqb c "+" || Ascii.eqb c "-" then rest else s in
      match body with
      | EmptyString => None
      | _ =>
          if allDigits body then
            Some (if Ascii.eqb c "-" then - decimal body else decimal body)
          else None
      end
  end.

(** The values of each type: the integers of its width for the integer
    types. *)
Definition representable {rt : Runtime} (T : kind) : goType T -> Prop :=
  match T with
  | KInt => fun z => - 2 ^ (bits IntSize - 1) <= z < 2 ^ (bits IntSize - 1)
  | KInt64 | KDuration => fun z => - 2 ^ 63 <= z < 2 ^ 63
  | KUint => fun z => 0 <= z < 2 ^ bits IntSize
  | KUint64 => fun z => 0 <= z < 2 ^ 64
  | KString => fun _ => True
  | KFloat64 => fun _ => True
  | KBool => fun _ => True
  end.

(** A state with another environment ([os.Setenv] from outside the
    package), and with other cell contents. *)
Definition withEnviron {C : Type} (env : gmap string string) (σ : State C) : State C :=
  mkState env (heap σ) (vars σ).

Definition withHeap {C : Type} (h : gmap loc val) (σ : State C) : State C :=
  mkState (environ σ) h (vars σ).

(** ** The generic primitives *)

Ltac run_step :=
  unfold value, setVar, failCast, os_LookupEnv, store, panic,
    mbind, M_bind, bind, mret, M_ret, ret; simpl.

Section PrimitiveFacts.
Context {rt : Runtime} {C : Type}.
Implicit Types (σ : State C) (T : kind).

Lemma value_unset T name (d : goType T) conv σ :
  environ σ !! name = None ->
  value T name d conv σ = mkRun [LookupEnv name] σ (Returned d).
Proof. intros Hn. run_step. rewrite Hn. reflexivity. Qed.

Lemma value_converted T name (d v : goType T) conv s σ :
  environ σ !! name = Some s -> conv s = (v, None) ->
  value T name d conv σ = mkRun [LookupEnv name] σ (Returned v).
Proof. intros Hn Hc. run_step. rewrite Hn. simpl. rewrite Hc. reflexivity. Qed.

Lemma value_rejected T name (d v : goType T) conv s e σ :
  environ σ !! name = Some s -> conv s = (v, Some e) ->
  value T name d conv σ =
    mkRun [LookupEnv name] σ
      (Panicked (fmt.Errorf_failed_to_parse name (typeName T) e)).
Proof. intros Hn Hc. run_step. rewrite Hn. simpl. rewrite Hc. reflexivity. Qed.

Lemma setVar_unset T addr name (d : goType T) cast σ :
  environ σ !! name = None ->
  setVar T addr name d cast σ =
    mkRun [LookupEnv name; Store addr (box T d)]
      (mkState (environ σ) (<[addr := box T d]> (heap σ)) (vars σ))
      (Returned tt).
Proof. intros Hn. run_step. rewrite Hn. reflexivity. Qed.

Lemma setVar_converted T addr name (d cv : goType T) cast s σ :
  environ σ !! name = Some s -> cast s = (cv, None) ->
  setVar T addr name d cast σ =
    mkRun [LookupEnv name; Store addr (box T cv)]
      (mkState (environ σ) (<[addr := box T cv]> (heap σ)) (vars σ))
      (Returned tt).
Proof. intros Hn Hc. run_step. rewrite Hn. simpl. rewrite Hc. reflexivity. Qed.

Lemma setVar_rejected T addr name (d cv : goType T) cast s e σ :
  environ σ !! name = Some s -> cast s = (cv, Some e) ->
  setVar T addr name d cast σ =
    mkRun [LookupEnv name] σ
      (Panicked (fmt.Errorf_failed_to_parse name (typeName T) e)).
Proof. intros Hn Hc. run_step. rewrite Hn. simpl. rewrite Hc. reflexivity. Qed.

Lemma accessor_value T name (d : goType T) :
  accessor (closure := C) T name d = value T name d (converter T).
Proof. destruct T; reflexivity. Qed.

End PrimitiveFacts.

Section QueueFacts.
Context {rt : Runtime}.
Implicit Types (σ : State closure) (fn : closure).

Lemma binder_queueSetVar T addr name (d : goType T) :
  binder T addr name d = queueSetVar T addr name d (converter T).
Proof. destruct T; reflexivity. Qed.

Lemma register_run c σ :
  register c σ =
    mkRun [] (mkState (environ σ) (heap σ) (vars σ ++ [pending c])) (Returned tt).
Proof. unfold register. rewrite binder_queueSetVar. reflexivity. Qed.

(** Calling a queued closure, by what its resolution gives. *)
Lemma call_resolve fn σ :
  call fn σ =
    match resolve (environ σ) fn with
    | inl v =>
        mkRun [LookupEnv (fn_name fn); Store (fn_addr fn) (box (fn_T fn) v)]
          (mkState (environ σ) (<[fn_addr fn := box (fn_T fn) v]> (heap σ)) (vars σ))
          (Returned tt)
    | inr e =>
        mkRun [LookupEnv (fn_name fn)] σ
          (Panicked (fmt.Errorf_failed_to_parse (fn_name fn) (typeName (fn_T fn)) e))
    end.
Proof.
  unfold call, resolve.
  destruct (environ σ !! fn_name fn) as [s|] eqn:Hn.
  - destruct (fn_cast fn s) as [cv [e|]] eqn:Hc.
    + eapply setVar_rejected; eauto.
    + eapply setVar_converted; eauto.
  - apply setVar_unset; assumption.
Qed.

End QueueFacts.

(** ** The loop of Parse *)

Section LoopFacts.
Context {C : Type} (call : C -> M C unit).
Implicit Types (σ : State C) (fns : list C).

Lemma range_cons fn fns σ :
  range call (fn :: fns) σ =
    let r := call fn σ in
    match result r with
    | Returned _ =>
        let r' := range call fns (final r) in
        mkRun (Invoke fn (trace r) :: trace r') (final r') (result r')
    | Panicked e => mkRun [Invoke fn (trace r)] (final r) (Panicked e)
    end.
Proof.
  simpl. unfold mbind, M_bind, bind, invoke. simpl.
  destruct (result (call fn σ)); reflexivity.
Qed.

Lemma stores_app (t1 t2 : list (event C)) :
  stores (t1 ++ t2) = stores t1 ++ stores t2.
Proof. unfold stores. apply flat_map_app. Qed.

Lemma storesTo_cons l (e : event C) (t : list (event C)) :
  storesTo l (e :: t) = (storesTo l [e] + storesTo l t)%nat.
Proof.
  unfold storesTo. change (e :: t) with ([e] ++ t).
  rewrite stores_app, filter_app, length_app. reflexivity.
Qed.

(** The loop calls closures of the list it was given, from its start
    and in its order, whatever the calls do: all of them when it
    returns. *)
Lemma range_invoked_prefix fns :
  forall σ,
    invoked (trace (range call fns σ)) `prefix_of` fns /\
    (forall u, result (range call fns σ) = Returned u ->
       invoked (trace (range call fns σ)) = fns).
Proof.
  induction fns as [|fn fns IH]; intros σ.
  - split; [apply prefix_nil | reflexivity].
  - rewrite range_cons. cbv zeta.
    destruct (result (call fn σ)) as [[]|e] eqn:Hr; simpl.
    + destruct (IH (final (call fn σ))) as [Hp Ha]. split.
      * apply prefix_cons, Hp.
      * intros u Hu. f_equal. eapply Ha, Hu.
    + split; [|discriminate].
      exists fns. reflexivity.
Qed.

(** The loop itself never assigns to [vars]: a relation between queues
    that every call maintains is maintained by the loop. *)
Lemma range_vars_preserved (R : list C -> list C -> Prop) fns :
  (forall q, R q q) ->
  (forall q1 q2 q3, R q1 q2 -> R q2 q3 -> R q1 q3) ->
  (forall fn σ, R (vars σ) (vars (final (call fn σ)))) ->
  forall σ, R (vars σ) (vars (final (range call fns σ))).
Proof.
  intros Hrefl Htrans Hcall. induction fns as [|fn fns IH]; intros σ.
  - apply Hrefl.
  - rewrite range_cons. cbv zeta.
    destruct (result (call fn σ)) as [[]|e]; simpl.
    + eapply Htrans; [apply Hcall | apply IH].
    + apply Hcall.
Qed.

End LoopFacts.

Section ParseFacts.
Context {rt : Runtime}.
Implicit Types (σ : State closure) (fn : closure) (fns : list closure).
Implicit Types (env : gmap string string).

Lemma resolves_inr env fn e :
  resolve env fn = inr e -> resolves env fn = false.
Proof. unfold resolves. intros ->. reflexivity. Qed.

(** One turn of the loop on a binding that resolves. *)
Lemma call_resolves fn σ :
  resolves (environ σ) fn = true ->
  call fn σ =
    mkRun [LookupEnv (fn_name fn); Store (fn_addr fn) (assigned (environ σ) fn)]
      (mkState (environ σ) (<[fn_addr fn := assigned (environ σ) fn]> (heap σ)) (vars σ))
      (Returned tt).
Proof.
  intros Hr. rewrite call_resolve. unfold assigned.
  unfold resolves in Hr. destruct (resolve (environ σ) fn); [reflexivity | discriminate].
Qed.

(** One turn of the loop on a binding whose conversion fails. *)
Lemma call_fails fn σ e :
  resolve (environ σ) fn = inr e ->
  call fn σ =
    mkRun [LookupEnv (fn_name fn)] σ
      (Panicked (fmt.Errorf_failed_to_parse (fn_name fn) (typeName (fn_T fn)) e)).
Proof. intros Hr. rewrite call_resolve, Hr. reflexivity. Qed.

Lemma call_keeps_vars fn σ : vars (final (call fn σ)) = vars σ.
Proof. rewrite call_resolve. destruct (resolve (environ σ) fn); reflexivity. Qed.

(** The loop over bindings that all resolve. *)
Lemma range_resolving fns :
  forall σ,
    Forall (fun fn => resolves (environ σ) fn = true) fns ->
    range call fns σ =
      mkRun (map (eventOf (environ σ)) fns)
        (mkState (environ σ) (assignAll (environ σ) fns (heap σ)) (vars σ))
        (Returned tt).
Proof.
  induction fns as [|fn fns IH]; intros σ Hall.
  - destruct σ. reflexivity.
  - inversion Hall as [|? ? Hfn Hrest]; subst.
    rewrite range_cons, (call_resolves _ _ Hfn). cbv zeta. simpl result. cbv iota.
    simpl final. rewrite IH by exact Hrest.
    cbn [trace final result environ heap vars map].
    unfold eventOf at 2. rewrite Hfn. reflexivity.
Qed.

(** The loop up to the first binding whose conversion fails. *)
Lemma range_failing pre fn post e :
  forall σ,
    Forall (fun fn => resolves (environ σ) fn = true) pre ->
    resolve (environ σ) fn = inr e ->
    range call (pre ++ fn :: post) σ =
      mkRun (map (eventOf (environ σ)) (pre ++ [fn]))
        (mkState (environ σ) (assignAll (environ σ) pre (heap σ)) (vars σ))
        (Panicked (fmt.Errorf_failed_to_parse (fn_name fn) (typeName (fn_T fn)) e)).
Proof.
  induction pre as [|p pre IH]; intros σ Hall He.
  - simpl app. rewrite range_cons, (call_fails _ _ _ He).
    cbn [trace final result map].
    unfold eventOf. rewrite (resolves_inr _ _ _ He). destruct σ. reflexivity.
  - inversion Hall as [|? ? Hp Hrest]; subst.
    change ((p :: pre) ++ fn :: post) with (p :: (pre ++ fn :: post)).
    rewrite range_cons, (call_resolves _ _ Hp). cbv zeta. simpl result. cbv iota.
    simpl final. rewrite IH by assumption.
    cbn [trace final result environ heap vars map app].
    unfold eventOf at 2. rewrite Hp. reflexivity.
Qed.

(** A queue either resolves throughout or has a first binding whose
    conversion fails. *)
Lemma first_failure env fns :
  Forall (fun fn => resolves env fn = true) fns \/
  exists pre fn post e,
    fns = pre ++ fn :: post /\
    Forall (fun fn => resolves env fn = true) pre /\
    resolve env fn = inr e.
Proof.
  induction fns as [|fn fns IH].
  - left. constructor.
  - destruct (resolve env fn) as [v|e] eqn:Hr.
    + destruct IH as [Hall | (pre & f & post & e & -> & Hpre & He)].
      * left. constructor; [|exact Hall]. unfold resolves. rewrite Hr. reflexivity.
      * right. exists (fn :: pre), f, post, e. repeat split; [|exact He].
        constructor; [|exact Hpre]. unfold resolves. rewrite Hr. reflexivity.
    + right. exists [], fn, fns, e. repeat split; [constructor | exact Hr].
Qed.

Lemma invoked_eventOf env fns : invoked (map (eventOf env) fns) = fns.
Proof.
  induction fns as [|fn fns IH]; [reflexivity|].
  simpl. f_equal. exact IH.
Qed.

Lemma lookups_eventOf env fns :
  lookups (map (eventOf env) fns) = map fn_name fns.
Proof.
  induction fns as [|fn fns IH]; [reflexivity|].
  change (lookups (map (eventOf env) (fn :: fns)))
    with (lookupsIn (eventOf env fn) ++ lookups (map (eventOf env) fns)).
  rewrite IH. unfold eventOf. destruct (resolves env fn); reflexivity.
Qed.

Lemma stores_eventOf env fns :
  Forall (fun fn => resolves env fn = true) fns ->
  stores (map (eventOf env) fns) =
    map (fun fn => (fn_addr fn, assigned env fn)) fns.
Proof.
  induction 1 as [|fn fns Hfn _ IH]; [reflexivity|].
  change (stores (map (eventOf env) (fn :: fns)))
    with (storesIn (eventOf env fn) ++ stores (map (eventOf env) fns)).
  rewrite IH. unfold eventOf. rewrite Hfn. reflexivity.
Qed.

Lemma stores_eventOf_failed env fn e :
  resolve env fn = inr e -> stores [eventOf env fn] = [].
Proof.
  intros He. unfold stores, eventOf. rewrite (resolves_inr _ _ _ He). reflexivity.
Qed.

End ParseFacts.

(** ** The store a queue leaves *)

Section StoreFacts.
Implicit Types (fn : closure) (fns : list closure) (h : gmap loc val).
Implicit Types (env : gmap string string) (l : loc).

Lemma assignAll_snoc env fns fn h :
  assignAll env (fns ++ [fn]) h =
    <[fn_addr fn := assigned env fn]> (assignAll env fns h).
Proof. unfold assignAll. rewrite foldl_app. reflexivity. Qed.

Lemma assignAll_app env fns1 fns2 h :
  assignAll env (fns1 ++ fns2) h = assignAll env fns2 (assignAll env fns1 h).
Proof. unfold assignAll. apply foldl_app. Qed.

(** A cell no binding of the queue points to keeps its content. *)
Lemma assignAll_other env fns l :
  forall h, l ∉ map fn_addr fns -> assignAll env fns h !! l = h !! l.
Proof.
  induction fns as [|fn fns IH]; intros h Hl; [reflexivity|].
  simpl in Hl. apply not_elem_of_cons in Hl as [Hne Hl].
  simpl. rewrite IH by exact Hl.
  apply lookup_insert_ne. congruence.
Qed.

(** A cell holds what the last binding pointing to it assigned. *)
Lemma assignAll_last_writer env pre fn post h :
  fn_addr fn ∉ map fn_addr post ->
  assignAll env (pre ++ fn :: post) h !! fn_addr fn = Some (assigned env fn).
Proof.
  intros Hl. rewrite assignAll_app. simpl.
  change (foldl _ ?h0 post) with (assignAll env post h0).
  rewrite assignAll_other by exact Hl. apply lookup_insert_eq.
Qed.

End StoreFacts.

Section RegisterFacts.
Context {rt : Runtime}.
Implicit Types (σ : State closure).

Lemma registerAll_run cs :
  forall σ,
    registerAll cs σ =
      mkRun [] (mkState (environ σ) (heap σ) (vars σ ++ map pending cs))
        (Returned tt).
Proof.
  induction cs as [|c cs IH]; intros σ.
  - simpl. rewrite app_nil_r. destruct σ. reflexivity.
  - simpl. unfold mbind, M_bind, bind. rewrite register_run. simpl.
    rewrite IH. simpl. rewrite <- app_assoc. reflexivity.
Qed.

Lemma Parse_range σ : Parse σ = range call (vars σ) σ.
Proof. reflexivity. Qed.

End RegisterFacts.

(** ** Resolution of one variable *)

Section Resolution.
Context {rt : Runtime}.
Implicit Types (σ : State closure) (T : kind) (addr : loc).

(** C1. For every supported type, name and default: when the variable
    is not in the environment, the accessor returns the default as it
    was given, and the binding the binder queues assigns the default as
    it was given to the destination when it is called, also when
    called by Parse after the bindings queued before it. *)
Theorem C1_unset_variable_gives_default T name (d : goType T) addr σ :
  environ σ !! name = None ->
  (result (accessor T name d σ) = Returned d /\
   final (accessor T name d σ) = σ) /\
  (let fn := pending (Register T addr name d) in
   (forall σ0, vars (final (binder T addr name d σ0)) = vars σ0 ++ [fn]) /\
   result (call fn σ) = Returned tt /\
   stores (trace (call fn σ)) = [(addr, box T d)] /\
   heap (final (call fn σ)) = <[addr := box T d]> (heap σ)) /\
  (let σ1 := final (binder T addr name d σ) in
   Forall (fun fn => resolves (environ σ) fn = true) (vars σ) ->
   result (Parse σ1) = Returned tt /\
   heap (final (Parse σ1)) !! addr = Some (box T d)).
Proof.
  intros Hn.
  assert (Hres : resolve (environ σ) (pending (Register T addr name d)) = inl d).
  { unfold resolve. simpl. rewrite Hn. reflexivity. }
  split; [|split].
  - rewrite accessor_value, (value_unset _ _ _ _ _ Hn). split; reflexivity.
  - cbv zeta. split; [|split; [|split]].
    + intros σ0. rewrite binder_queueSetVar. reflexivity.
    + rewrite call_resolve, Hres. reflexivity.
    + rewrite call_resolve, Hres. reflexivity.
    + rewrite call_resolve, Hres. reflexivity.
  - cbv zeta. intros Hall. rewrite binder_queueSetVar. simpl final.
    rewrite Parse_range. simpl vars.
    change (mkClosure T addr name d (converter T))
      with (pending (Register T addr name d)).
    rewrite range_resolving.
    + simpl. split; [reflexivity|].
      rewrite assignAll_snoc. simpl fn_addr. rewrite lookup_insert_eq.
      unfold assigned. rewrite Hres. reflexivity.
    + simpl environ. apply Forall_app. split; [exact Hall|].
      constructor; [|constructor]. unfold resolves. rewrite Hres. reflexivity.
Qed.

(** C3. For every supported type and name: when the variable is in the
    environment with a value the type's converter rejects, the accessor
    and the queued binding panic instead of returning, and the panic
    value is an error whose text is
    [failed to parse <name> as <type name>: <text of the converter's error>]
    and which wraps the converter's error. The binding assigns
    nothing. *)
Theorem C3_rejected_value_panics T name (d v : goType T) addr s e σ :
  environ σ !! name = Some s ->
  converter T s = (v, Some e) ->
  let failure :=
    wrapError
      ("failed to parse " +:+ name +:+ " as " +:+ typeName T +:+ ": " +:+ Error e)
      e in
  result (accessor T name d σ) = Panicked failure /\
  (let fn := pending (Register T addr name d) in
   result (call fn σ) = Panicked failure /\
   stores (trace (call fn σ)) = [] /\
   final (call fn σ) = σ) /\
  (let σ1 := final (binder T addr name d σ) in
   Forall (fun fn => resolves (environ σ) fn = true) (vars σ) ->
   result (Parse σ1) = Panicked failure).
Proof.
  intros Hn Hc failure.
  assert (Hres : resolve (environ σ) (pending (Register T addr name d)) = inr e).
  { unfold resolve. simpl. rewrite Hn, Hc. reflexivity. }
  split; [|split].
  - rewrite accessor_value, (value_rejected _ _ _ _ _ _ _ _ Hn Hc). reflexivity.
  - cbv zeta. rewrite (call_fails _ _ _ Hres). repeat split.
  - cbv zeta. intros Hall. rewrite binder_queueSetVar. simpl final.
    rewrite Parse_range. simpl vars.
    change (mkClosure T addr name d (converter T))
      with (pending (Register T addr name d)).
    rewrite (range_failing _ _ [] e); [reflexivity | exact Hall | exact Hres].
Qed.

(** C6. For text: when the variable is in the environment with the
    empty string as its value, [String] returns the empty string and
    the binding of [StringVar] assigns the empty string, whatever the
    default is. *)
Theorem C6_empty_text_is_kept name (defaultValue : string) addr σ :
  environ σ !! name = Some EmptyString ->
  result (String name defaultValue σ) = Returned EmptyString /\
  (forall σ0,
     vars (final (StringVar addr name defaultValue σ0)) =
       vars σ0 ++ [mkClosure KString addr name defaultValue castString]) /\
  (let fn := mkClosure KString addr name defaultValue castString in
   result (call fn σ) = Returned tt /\
   stores (trace (call fn σ)) = [(addr, VString EmptyString)] /\
   heap (final (call fn σ)) !! addr = Some (VString EmptyString)).
Proof.
  intros Hn. split; [|split].
  - unfold String. erewrite value_converted; [reflexivity | exact Hn | reflexivity].
  - reflexivity.
  - cbv zeta. unfold call.
    cbn [fn_T fn_addr fn_name fn_defaultValue fn_cast].
    erewrite setVar_converted; [|exact Hn|reflexivity].
    simpl. rewrite lookup_insert_eq. repeat split.
Qed.

End Resolution.

(** ** Registration *)

Section Registration.
Context {rt : Runtime}.
Implicit Types (σ : State closure) (T : kind) (addr : loc).

(** C5. A call of a deferred binder, of any of the eight types, returns
    at once with the closure appended to the queue: it looks up no
    environment variable, stores through no destination, and leaves the
    environment and every cell as they were. So does any sequence of
    such calls: the destinations of the bindings registered hold what
    they held until Parse runs. *)
Theorem C5_binder_only_queues :
  (forall T addr name (d : goType T) σ,
     let r := binder T addr name d σ in
     result r = Returned tt /\
     trace r = [] /\
     environ (final r) = environ σ /\
     heap (final r) = heap σ /\
     vars (final r) = vars σ ++ [pending (Register T addr name d)]) /\
  (forall cs σ,
     let r := registerAll cs σ in
     result r = Returned tt /\
     lookups (trace r) = [] /\
     stores (trace r) = [] /\
     heap (final r) = heap σ /\
     vars (final r) = vars σ ++ map pending cs /\
     forall c, c ∈ cs -> heap (final r) !! reg_addr c = heap σ !! reg_addr c).
Proof.
  split.
  - intros T addr name d σ. cbv zeta. rewrite binder_queueSetVar.
    repeat split.
  - intros cs σ. cbv zeta. rewrite registerAll_run. repeat split.
Qed.

End Registration.

(** ** Converters *)

Section Converters.
Context {rt : Runtime}.
Implicit Types (σ : State closure).

(** C8. The converter of durations is the base-10 parse of a signed
    64-bit integer, read as a count of nanoseconds: it fails exactly
    when that parse fails, with the parse's error, and otherwise gives
    the integer parsed. A variable set to [5000000000] resolves, with
    default 0, to five seconds; a variable set to [5s] makes the
    accessor panic. *)
Theorem C8_duration_is_integer_nanoseconds :
  (forall s,
     castDuration s =
       match strconv.ParseInt s strconv.Bits64 with
       | (_, Some err) => (0, Some err)
       | (i, None) => (i, None)
       end) /\
  (forall s,
     (castDuration s).2 = None <-> (strconv.ParseInt s strconv.Bits64).2 = None) /\
  (forall name σ,
     environ σ !! name = Some "5000000000" ->
     result (Duration name 0 σ) = Returned (5 * time.Second)) /\
  (forall name d addr σ,
     environ σ !! name = Some "5s" ->
     strconv.ParseInt "5s" strconv.Bits64 =
       (0, Some (NumError "ParseInt" "5s" ErrSyntax)) /\
     result (Duration name d σ) =
       Panicked
         (fmt.Errorf_failed_to_parse name "time.Duration"
            (NumError "ParseInt" "5s" ErrSyntax)) /\
     result (call (mkClosure KDuration addr name d castDuration) σ) =
       Panicked
         (fmt.Errorf_failed_to_parse name "time.Duration"
            (NumError "ParseInt" "5s" ErrSyntax))).
Proof.
  assert (Hdef : forall s,
     castDuration s =
       match strconv.ParseInt s strconv.Bits64 with
       | (_, Some err) => (0, Some err)
       | (i, None) => (i, None)
       end).
  { intros s. unfold castDuration, castInt64.
    destruct (strconv.ParseInt s strconv.Bits64) as [i [err|]]; reflexivity. }
  split; [exact Hdef|]. split; [|split].
  - intros s. rewrite Hdef.
    destruct (strconv.ParseInt s strconv.Bits64) as [i [err|]]; simpl;
      split; (reflexivity || discriminate).
  - intros name σ Hn. unfold Duration.
    erewrite value_converted; [reflexivity | exact Hn | vm_compute; reflexivity].
  - intros name d addr σ Hn.
    assert (Hp : strconv.ParseInt "5s" strconv.Bits64 =
                   (0, Some (NumError "ParseInt" "5s" ErrSyntax)))
      by (vm_compute; reflexivity).
    assert (Hc : castDuration "5s" = (0, Some (NumError "ParseInt" "5s" ErrSyntax)))
      by (rewrite Hdef, Hp; reflexivity).
    split; [exact Hp|]. split.
    + unfold Duration.
      erewrite value_rejected; [reflexivity | exact Hn | exact Hc].
    + unfold call. cbn [fn_T fn_addr fn_name fn_defaultValue fn_cast].
      erewrite setVar_rejected; [reflexivity | exact Hn | exact Hc].
Qed.

(** C9. The converter of [uint] is the 64-bit unsigned parse followed
    by the conversion to [uint], which keeps the low bits: it fails
    exactly when the 64-bit parse fails and checks no range of its own.
    Where [uint] has 32 bits, [4294967296] is parsed without error and
    comes out as 0. *)
Theorem C9_uint_narrows_without_check :
  (forall s,
     castUint s =
       match strconv.ParseUint s strconv.Bits64 with
       | (_, Some err) => (0, Some err)
       | (i, None) => (i mod 2 ^ bits IntSize, None)
       end) /\
  (forall s,
     (castUint s).2 = None <-> (strconv.ParseUint s strconv.Bits64).2 = None) /\
  (IntSize = W32 ->
     strconv.ParseUint "4294967296" strconv.Bits64 = (2 ^ 32, None) /\
     castUint64 "4294967296" = (4294967296, None) /\
     castUint "4294967296" = (0, None) /\
     forall name d σ,
       environ σ !! name = Some "4294967296" ->
       result (Uint name d σ) = Returned 0).
Proof.
  assert (Hdef : forall s,
     castUint s =
       match strconv.ParseUint s strconv.Bits64 with
       | (_, Some err) => (0, Some err)
       | (i, None) => (i mod 2 ^ bits IntSize, None)
       end).
  { intros s. unfold castUint, castUint64, to_unsigned.
    destruct (strconv.ParseUint s strconv.Bits64) as [i [err|]]; reflexivity. }
  split; [exact Hdef|]. split.
  - intros s. rewrite Hdef.
    destruct (strconv.ParseUint s strconv.Bits64) as [i [err|]]; simpl;
      split; (reflexivity || discriminate).
  - intros Hw.
    assert (Hp : strconv.ParseUint "4294967296" strconv.Bits64 = (2 ^ 32, None))
      by (vm_compute; reflexivity).
    assert (Hc : castUint "4294967296" = (0, None)).
    { rewrite Hdef, Hp, Hw. reflexivity. }
    split; [exact Hp|]. split; [|split; [exact Hc|]].
    + unfold castUint64. rewrite Hp. reflexivity.
    + intros name d σ Hn. unfold Uint.
      erewrite value_converted; [reflexivity | exact Hn | exact Hc].
Qed.

End Converters.

(** ** Parse *)

Section Trigger.
Context {rt : Runtime}.
Implicit Types (σ : State closure) (fn : closure) (fns : list closure).

Lemma Atoi_10 : strconv.Atoi "10" = (10, None).
Proof. destruct rt as [[] q pf]; vm_compute; reflexivity. Qed.

Lemma Atoi_abc : strconv.Atoi "abc" = (0, Some (NumError "Atoi" "abc" ErrSyntax)).
Proof. destruct rt as [[] q pf]; vm_compute; reflexivity. Qed.

(** Parse on a queue that resolves throughout. *)
Lemma Parse_resolving σ :
  Forall (fun fn => resolves (environ σ) fn = true) (vars σ) ->
  Parse σ =
    mkRun (map (eventOf (environ σ)) (vars σ))
      (mkState (environ σ) (assignAll (environ σ) (vars σ) (heap σ)) (vars σ))
      (Returned tt).
Proof. intros Hall. rewrite Parse_range. apply range_resolving, Hall. Qed.

(** Parse on a queue with a first binding whose conversion fails. *)
Lemma Parse_failing σ pre fn post e :
  vars σ = pre ++ fn :: post ->
  Forall (fun fn => resolves (environ σ) fn = true) pre ->
  resolve (environ σ) fn = inr e ->
  Parse σ =
    mkRun (map (eventOf (environ σ)) (pre ++ [fn]))
      (mkState (environ σ) (assignAll (environ σ) pre (heap σ)) (vars σ))
      (Panicked (fmt.Errorf_failed_to_parse (fn_name fn) (typeName (fn_T fn)) e)).
Proof.
  intros Hq Hall He. rewrite Parse_range, Hq.
  rewrite (range_failing pre fn post e σ Hall He), Hq. reflexivity.
Qed.

(** C2, amended. Binder calls queue their bindings in the order of the
    calls, and Parse calls the queued bindings one after the other in
    that order, each to completion before the next: all of them when
    every binding resolves, and then it returns; otherwise those up to
    and including the first whose conversion fails, and there it
    panics with that binding's error, calling none of the bindings
    after it. One of the two is the case for every queue and
    environment. After [IntVar(&A, "FOO", 1)] and
    [IntVar(&B, "BAR", 2)] on an empty queue, with FOO=10 and BAR unset,
    Parse leaves 10 in A and 2 in B. *)
Theorem C2_parse_calls_in_registration_order :
  (forall cs σ, vars (final (registerAll cs σ)) = vars σ ++ map pending cs) /\
  (forall cs σ,
     vars σ = [] ->
     Forall (fun fn => resolves (environ σ) fn = true) (map pending cs) ->
     let r := (registerAll cs;; Parse) σ in
     result r = Returned tt /\
     invoked (trace r) = map pending cs /\
     length (invoked (trace r)) = length cs) /\
  (forall σ, invoked (trace (Parse σ)) `prefix_of` vars σ) /\
  (forall σ,
     Forall (fun fn => resolves (environ σ) fn = true) (vars σ) ->
     result (Parse σ) = Returned tt /\
     invoked (trace (Parse σ)) = vars σ /\
     lookups (trace (Parse σ)) = map fn_name (vars σ) /\
     stores (trace (Parse σ)) =
       map (fun fn => (fn_addr fn, assigned (environ σ) fn)) (vars σ)) /\
  (forall σ pre fn post e,
     vars σ = pre ++ fn :: post ->
     Forall (fun fn => resolves (environ σ) fn = true) pre ->
     resolve (environ σ) fn = inr e ->
     result (Parse σ) =
       Panicked (fmt.Errorf_failed_to_parse (fn_name fn) (typeName (fn_T fn)) e) /\
     invoked (trace (Parse σ)) = pre ++ [fn] /\
     length (invoked (trace (Parse σ))) = S (length pre)) /\
  (forall (A B : loc) σ,
     A ≠ B -> vars σ = [] ->
     environ σ !! "FOO" = Some "10" -> environ σ !! "BAR" = None ->
     let r := (IntVar A "FOO" 1;; IntVar B "BAR" 2;; Parse) σ in
     result r = Returned tt /\
     map fn_addr (invoked (trace r)) = [A; B] /\
     heap (final r) !! A = Some (VInt 10) /\
     heap (final r) !! B = Some (VInt 2)) /\
  (forall σ,
     (Forall (fun fn => resolves (environ σ) fn = true) (vars σ) /\
      result (Parse σ) = Returned tt /\
      invoked (trace (Parse σ)) = vars σ) \/
     (exists pre fn post e,
        vars σ = pre ++ fn :: post /\
        Forall (fun fn => resolves (environ σ) fn = true) pre /\
        resolve (environ σ) fn = inr e /\
        result (Parse σ) =
          Panicked (fmt.Errorf_failed_to_parse (fn_name fn) (typeName (fn_T fn)) e) /\
        invoked (trace (Parse σ)) = pre ++ [fn])).
Proof.
  split; [|split; [|split; [|split; [|split; [|split]]]]].
  - intros cs σ. rewrite registerAll_run. reflexivity.
  - intros cs σ Hq Hall r. subst r.
    unfold mbind, M_bind, bind. rewrite registerAll_run.
    cbn [trace final result]. rewrite Hq. cbn [app].
    set (σ1 := mkState _ _ _).
    rewrite (Parse_resolving σ1 Hall). cbn [trace final result app].
    rewrite invoked_eventOf. subst σ1. cbn [vars].
    rewrite length_map. repeat split.
  - intros σ. rewrite Parse_range.
    apply (range_invoked_prefix call (vars σ) σ).
  - intros σ Hall. rewrite (Parse_resolving σ Hall). cbn [trace final result].
    rewrite invoked_eventOf, lookups_eventOf, (stores_eventOf _ _ Hall).
    repeat split.
  - intros σ pre fn post e Hq Hall He.
    rewrite (Parse_failing σ pre fn post e Hq Hall He). cbn [trace result].
    rewrite invoked_eventOf, length_app, Nat.add_comm. repeat split.
  - intros A B σ HAB Hq Hfoo Hbar r. subst r.
    unfold mbind, M_bind, bind, IntVar, queueSetVar. simpl.
    rewrite Hq. simpl app.
    set (σ2 := mkState _ _ _).
    assert (Hall : Forall (fun fn => resolves (environ σ2) fn = true) (vars σ2)).
    { subst σ2. simpl. repeat constructor.
      - unfold resolves, resolve. simpl. rewrite Hfoo, Atoi_10. reflexivity.
      - unfold resolves, resolve. simpl. rewrite Hbar. reflexivity. }
    rewrite (Parse_resolving σ2 Hall). cbn [trace final result heap].
    rewrite invoked_eventOf. subst σ2. cbn [environ heap vars].
    split; [reflexivity|]. split; [reflexivity|].
    unfold assignAll. cbn [foldl fn_addr].
    assert (H10 : assigned (environ σ) (mkClosure KInt A "FOO" 1 strconv.Atoi) = VInt 10).
    { unfold assigned, resolve. simpl. rewrite Hfoo, Atoi_10. reflexivity. }
    assert (H2 : assigned (environ σ) (mkClosure KInt B "BAR" 2 strconv.Atoi) = VInt 2).
    { unfold assigned, resolve. simpl. rewrite Hbar. reflexivity. }
    rewrite H10, H2. split.
    + rewrite lookup_insert_ne by congruence. apply lookup_insert_eq.
    + apply lookup_insert_eq.
  - intros σ.
    destruct (first_failure (environ σ) (vars σ))
      as [Hall | (pre & fn & post & e & Hq & Hpre & He)].
    + left. rewrite (Parse_resolving σ Hall). cbn [trace result].
      rewrite invoked_eventOf. repeat split. exact Hall.
    + right. exists pre, fn, post, e.
      rewrite (Parse_failing σ pre fn post e Hq Hpre He). cbn [trace result].
      rewrite invoked_eventOf. repeat split; assumption.
Qed.

End Trigger.

(** C2 as stated fails: two bindings are queued, the process has
    FOO=abc, and Parse calls the first binding only. *)
Lemma C2_counterexample :
  vars Ex.fooNotANumber = map (pending (rt := amd64)) Ex.twoInts /\
  length Ex.twoInts = 2%nat /\
  length (invoked (trace (Parse (rt := amd64) Ex.fooNotANumber))) = 1%nat /\
  map fn_name (vars Ex.fooNotANumber) = ["FOO"; "BAR"] /\
  map fn_name (invoked (trace (Parse (rt := amd64) Ex.fooNotANumber))) = ["FOO"] /\
  result (Parse (rt := amd64) Ex.fooNotANumber) =
    Panicked
      (fmt.Errorf_failed_to_parse (rt := amd64) "FOO" "int"
         (NumError "Atoi" "abc" ErrSyntax)).
Proof. split; [reflexivity|]. vm_compute. repeat split. Qed.

(** The scenario of C2 on two cells of a fresh process. *)
Lemma C2_witness :
  Forall (fun fn => resolves (environ Ex.fooIsTen) fn = true) (vars Ex.fooIsTen) /\
  result (Parse (rt := amd64) Ex.fooIsTen) = Returned tt /\
  invoked (trace (Parse (rt := amd64) Ex.fooIsTen)) = vars Ex.fooIsTen /\
  resolve (environ Ex.fooNotANumber) (pending (rt := amd64) (Register KInt Ex.A "FOO" 1)) =
    inr (NumError "Atoi" "abc" ErrSyntax) /\
  result (Parse (rt := amd64) Ex.fooNotANumber) =
    Panicked (fmt.Errorf_failed_to_parse (rt := amd64) "FOO" "int"
                (NumError "Atoi" "abc" ErrSyntax)) /\
  length (invoked (trace (Parse (rt := amd64) Ex.fooNotANumber))) = 1%nat.
Proof.
  assert (H : Forall (fun fn => resolves (environ Ex.fooIsTen) fn = true)
                (vars Ex.fooIsTen)).
  { repeat constructor. }
  assert (He : resolve (environ Ex.fooNotANumber)
                 (pending (rt := amd64) (Register KInt Ex.A "FOO" 1)) =
               inr (NumError "Atoi" "abc" ErrSyntax)) by reflexivity.
  split; [exact H|].
  destruct (@C2_parse_calls_in_registration_order amd64)
    as (_ & _ & _ & Hall & Hfail & _).
  destruct (Hall Ex.fooIsTen H) as (Hr & Hi & _).
  split; [exact Hr|]. split; [exact Hi|]. split; [exact He|].
  destruct (Hfail Ex.fooNotANumber []
              (pending (rt := amd64) (Register KInt Ex.A "FOO" 1))
              [pending (rt := amd64) (Register KInt Ex.B "BAR" 2)]
              (NumError "Atoi" "abc" ErrSyntax)
              eq_refl (List.Forall_nil _) He) as (Hp & _ & Hlen).
  split; [exact Hp | exact Hlen].
Defined.

(** ** A conversion failure during Parse *)

Section Failure.
Context {rt : Runtime}.
Implicit Types (σ : State closure) (fn : closure) (fns : list closure).

(** C4, amended. When the bindings before the k-th resolve and the
    conversion of the k-th fails, Parse panics there with that
    binding's error. The earlier bindings have been called and have
    assigned, in order; the store is left as they made it, nothing is
    rolled back: a destination holds the resolved value of the last
    earlier binding that points to it. The k-th binding and the ones
    after it assign nothing, and the ones after it are not called: a
    cell no earlier binding points to holds what it held. *)
Theorem C4_failure_stops_parse σ pre fn post s (v : goType (fn_T fn)) e :
  vars σ = pre ++ fn :: post ->
  Forall (fun fn => resolves (environ σ) fn = true) pre ->
  environ σ !! fn_name fn = Some s ->
  fn_cast fn s = (v, Some e) ->
  let r := Parse σ in
  result r =
    Panicked
      (wrapError
         ("failed to parse " +:+ fn_name fn +:+ " as " +:+ typeName (fn_T fn)
            +:+ ": " +:+ Error e)
         e) /\
  invoked (trace r) = pre ++ [fn] /\
  stores (trace r) = map (fun p => (fn_addr p, assigned (environ σ) p)) pre /\
  heap (final r) = assignAll (environ σ) pre (heap σ) /\
  (forall before p after,
     pre = before ++ p :: after ->
     fn_addr p ∉ map fn_addr after ->
     heap (final r) !! fn_addr p = Some (assigned (environ σ) p)) /\
  (forall l, l ∉ map fn_addr pre -> heap (final r) !! l = heap σ !! l) /\
  vars (final r) = vars σ /\
  (forall (A B : loc) σ0,
     A ≠ B -> vars σ0 = [] ->
     environ σ0 !! "FOO" = Some "10" -> environ σ0 !! "BAR" = Some "abc" ->
     let r0 := (IntVar A "FOO" 1;; IntVar B "BAR" 2;; Parse) σ0 in
     result r0 =
       Panicked
         (wrapError
            ("failed to parse BAR as int: "
               +:+ Error (NumError "Atoi" "abc" ErrSyntax))
            (NumError "Atoi" "abc" ErrSyntax)) /\
     heap (final r0) !! A = Some (VInt 10) /\
     heap (final r0) !! B = heap σ0 !! B).
Proof.
  intros Hq Hall Hn Hc r.
  assert (He : resolve (environ σ) fn = inr e).
  { unfold resolve. rewrite Hn, Hc. reflexivity. }
  subst r. rewrite (Parse_failing σ pre fn post e Hq Hall He).
  cbn [trace final result heap vars].
  split; [reflexivity|]. split; [apply invoked_eventOf|].
  split; [|split; [reflexivity|split; [|split; [|split; [reflexivity|]]]]].
  - rewrite map_app, stores_app, (stores_eventOf _ _ Hall).
    cbn [map]. rewrite (stores_eventOf_failed _ _ _ He).
    apply app_nil_r.
  - intros before p after -> Hlast. apply assignAll_last_writer, Hlast.
  - intros l Hl. apply assignAll_other, Hl.
  - clear. intros A B σ HAB Hq Hfoo Hbar.
    unfold mbind, M_bind, bind, IntVar, queueSetVar. simpl.
    rewrite Hq. simpl app.
    set (σ2 := mkState _ _ _).
    assert (H10 : resolves (environ σ2) (mkClosure KInt A "FOO" 1 strconv.Atoi) = true).
    { unfold resolves, resolve. simpl. rewrite Hfoo, Atoi_10. reflexivity. }
    assert (Habc : resolve (environ σ2) (mkClosure KInt B "BAR" 2 strconv.Atoi) =
                     inr (NumError "Atoi" "abc" ErrSyntax)).
    { unfold resolve. simpl. rewrite Hbar, Atoi_abc. reflexivity. }
    rewrite (Parse_failing σ2 [mkClosure KInt A "FOO" 1 strconv.Atoi]
               (mkClosure KInt B "BAR" 2 strconv.Atoi) []
               (NumError "Atoi" "abc" ErrSyntax) eq_refl
               ltac:(constructor; [exact H10 | constructor]) Habc).
    cbn [trace final result heap].
    split; [reflexivity|].
    unfold assignAll. cbn [foldl fn_addr]. subst σ2. cbn [environ heap].
    assert (Hv : assigned (environ σ) (mkClosure KInt A "FOO" 1 strconv.Atoi) = VInt 10).
    { unfold assigned, resolve. simpl. rewrite Hfoo, Atoi_10. reflexivity. }
    rewrite Hv. split.
    + apply lookup_insert_eq.
    + apply lookup_insert_ne. exact HAB.
Qed.

End Failure.

(** C4 as stated fails when destinations are shared: Parse panics at
    the third binding (PORT=abc); the first binding resolved to 1, yet
    its destination holds 2, the value of the second; the fourth
    binding is not called, yet its destination, the same cell, no
    longer holds the 0 it held. *)
Lemma C4_counterexample :
  map fn_name (vars Ex.sharedThenFailure) = ["LOW"; "HIGH"; "PORT"; "LAST"] /\
  map fn_addr (vars Ex.sharedThenFailure) = [Ex.A; Ex.A; Ex.B; Ex.A] /\
  result (Parse (rt := amd64) Ex.sharedThenFailure) =
    Panicked
      (fmt.Errorf_failed_to_parse (rt := amd64) "PORT" "int"
         (NumError "Atoi" "abc" ErrSyntax)) /\
  map fn_name (invoked (trace (Parse (rt := amd64) Ex.sharedThenFailure))) =
    ["LOW"; "HIGH"; "PORT"] /\
  assigned (environ Ex.sharedThenFailure)
    <$> vars Ex.sharedThenFailure !! 0%nat = Some (VInt 1) /\
  heap Ex.sharedThenFailure !! Ex.A = Some (VInt 0) /\
  heap (final (Parse (rt := amd64) Ex.sharedThenFailure)) !! Ex.A = Some (VInt 2).
Proof. vm_compute. repeat split. Qed.

(** The hypotheses of C4 hold of that queue, with the third binding as
    the failing one. *)
Lemma C4_witness :
  result (Parse (rt := amd64) Ex.sharedThenFailure) =
    Panicked
      (wrapError
         ("failed to parse PORT as int: " +:+
            Error (rt := amd64) (NumError "Atoi" "abc" ErrSyntax))
         (NumError "Atoi" "abc" ErrSyntax)) /\
  map fn_name (invoked (trace (Parse (rt := amd64) Ex.sharedThenFailure))) =
    ["LOW"; "HIGH"; "PORT"] /\
  heap (final (Parse (rt := amd64) Ex.sharedThenFailure)) !! Ex.A = Some (VInt 2).
Proof.
  pose proof
    (@C4_failure_stops_parse amd64 Ex.sharedThenFailure
       [pending (Register KInt Ex.A "LOW" 1); pending (Register KInt Ex.A "HIGH" 2)]
       (pending (Register KInt Ex.B "PORT" 0))
       [pending (Register KInt Ex.A "LAST" 4)]
       "abc" 0 (NumError "Atoi" "abc" ErrSyntax)
       eq_refl
       ltac:(repeat constructor)
       eq_refl
       eq_refl) as H.
  cbv zeta in H. destruct H as (Hr & Hi & _ & _ & Hlast & _).
  split; [exact Hr|]. split; [rewrite Hi; reflexivity|].
  exact (Hlast [pending (Register KInt Ex.A "LOW" 1)]
           (pending (Register KInt Ex.A "HIGH" 2)) [] eq_refl
           ltac:(simpl; apply not_elem_of_nil)).
Defined.

(** ** Writes through destinations *)

Section Writes.
Context {rt : Runtime}.
Implicit Types (σ : State closure) (fn : closure) (fns : list closure).
Implicit Types (env : gmap string string) (l : loc).

Lemma bindingsTo_cons l fn fns :
  bindingsTo l (fn :: fns) =
    ((if decide (fn_addr fn = l) then 1 else 0) + bindingsTo l fns)%nat.
Proof.
  unfold bindingsTo. rewrite filter_cons.
  destruct (decide (fn_addr fn = l)); reflexivity.
Qed.

Lemma bindingsTo_prefix l fns1 fns2 :
  fns1 `prefix_of` fns2 -> (bindingsTo l fns1 <= bindingsTo l fns2)%nat.
Proof.
  intros [k ->]. unfold bindingsTo. rewrite filter_app, length_app. lia.
Qed.

Lemma storesTo_eventOf_one env l fn :
  storesTo l [eventOf env fn] =
    if resolves env fn then (if decide (fn_addr fn = l) then 1 else 0)%nat
    else 0%nat.
Proof.
  unfold eventOf, storesTo, stores. destruct (resolves env fn); [|reflexivity].
  simpl. rewrite filter_cons. simpl.
  destruct (decide (fn_addr fn = l)); reflexivity.
Qed.

Lemma storesTo_eventOf env l fns :
  (storesTo l (map (eventOf env) fns) <= bindingsTo l fns)%nat.
Proof.
  induction fns as [|fn fns IH]; [reflexivity|].
  cbn [map]. rewrite storesTo_cons, storesTo_eventOf_one, bindingsTo_cons.
  destruct (resolves env fn); destruct (decide (fn_addr fn = l)); lia.
Qed.

(** The events of a Parse: those of the bindings it calls, which are a
    prefix of the queue; when it panics, the last binding called is one
    whose conversion fails. *)
Lemma Parse_shape σ :
  exists called,
    called `prefix_of` vars σ /\
    trace (Parse σ) = map (eventOf (environ σ)) called /\
    heap (final (Parse σ)) =
      assignAll (environ σ) (filter (fun fn => resolves (environ σ) fn = true) called)
        (heap σ) /\
    (forall e, result (Parse σ) = Panicked e ->
       exists before fn err,
         called = before ++ [fn] /\
         Forall (fun fn => resolves (environ σ) fn = true) before /\
         resolve (environ σ) fn = inr err).
Proof.
  assert (Hfilter : forall fns,
            Forall (fun fn => resolves (environ σ) fn = true) fns ->
            filter (fun fn => resolves (environ σ) fn = true) fns = fns).
  { induction 1 as [|fn fns Hfn _ IH]; [reflexivity|].
    rewrite filter_cons, IH. destruct (decide _); [reflexivity | contradiction]. }
  destruct (first_failure (environ σ) (vars σ))
    as [Hall | (pre & fn & post & e & Hq & Hpre & He)].
  - exists (vars σ). rewrite (Parse_resolving σ Hall). cbn [trace final result heap].
    rewrite (Hfilter _ Hall).
    split; [reflexivity|]. split; [reflexivity|]. split; [reflexivity|].
    intros e He. discriminate He.
  - exists (pre ++ [fn]). rewrite (Parse_failing σ pre fn post e Hq Hpre He).
    cbn [trace final result heap].
    split; [|split; [reflexivity|split]].
    + rewrite Hq. exists post. rewrite <- app_assoc. reflexivity.
    + rewrite filter_app, (Hfilter _ Hpre), filter_cons.
      rewrite (resolves_inr _ _ _ He).
      destruct (decide _) as [Hd|_]; [discriminate Hd|].
      rewrite filter_nil, app_nil_r. reflexivity.
    + intros e' _. exists pre, fn, e. auto.
Qed.

(** C7, amended. What a Parse does is what the bindings it calls do,
    binding after binding, and during the call of a binding: the lookup
    of the binding's variable and then, only when lookup-or-default
    resolved, one store of the resolved value through the binding's
    destination; a binding whose conversion fails stores nothing and is
    the last one called. So a binding writes its destination at most once: a
    destination is written at most as often as bindings of the queue
    point to it, hence at most once when a single binding does. *)
Theorem C7_each_binding_writes_at_most_once σ :
  (exists called,
     called `prefix_of` vars σ /\
     trace (Parse σ) = map (eventOf (environ σ)) called /\
     (forall e, result (Parse σ) = Panicked e ->
        exists before fn err,
          called = before ++ [fn] /\
          resolve (environ σ) fn = inr err /\
          stores [eventOf (environ σ) fn] = [] /\
          heap (final (Parse σ)) = assignAll (environ σ) before (heap σ))) /\
  (forall fn σ', (length (stores (trace (call fn σ'))) <= 1)%nat) /\
  (forall l, (storesTo l (trace (Parse σ)) <= bindingsTo l (vars σ))%nat) /\
  (forall l, bindingsTo l (vars σ) = 1%nat -> (storesTo l (trace (Parse σ)) <= 1)%nat).
Proof.
  destruct (Parse_shape σ) as (called & Hpre & Htrace & Hheap & Hpanic).
  assert (Hcount : forall l,
            (storesTo l (trace (Parse σ)) <= bindingsTo l (vars σ))%nat).
  { intros l. rewrite Htrace.
    etransitivity; [apply storesTo_eventOf | apply bindingsTo_prefix, Hpre]. }
  split; [|split; [|split]].
  - exists called. split; [exact Hpre|]. split; [exact Htrace|].
    intros e He. destruct (Hpanic e He) as (before & fn & err & Hc & Hb & Hf).
    exists before, fn, err. split; [exact Hc|]. split; [exact Hf|].
    split; [apply (stores_eventOf_failed _ _ _ Hf)|].
    rewrite Hheap, Hc, filter_app, filter_cons, (resolves_inr _ _ _ Hf).
    destruct (decide _) as [Hd|_]; [discriminate Hd|].
    rewrite filter_nil, app_nil_r. f_equal.
    clear -Hb. induction Hb as [|p ps Hp _ IH]; [reflexivity|].
    rewrite filter_cons, IH. destruct (decide _); [reflexivity | contradiction].
  - intros fn σ'. rewrite call_resolve.
    destruct (resolve (environ σ') fn); simpl; lia.
  - exact Hcount.
  - intros l H1. rewrite <- H1. apply Hcount.
Qed.

End Writes.

(** C7 as stated fails when a destination is bound twice: Parse
    returns, and has stored through it twice. *)
Lemma C7_counterexample :
  map fn_addr (vars Ex.boundTwice) = [Ex.A; Ex.A] /\
  result (Parse (rt := amd64) Ex.boundTwice) = Returned tt /\
  stores (trace (Parse (rt := amd64) Ex.boundTwice)) =
    [(Ex.A, VInt 1); (Ex.A, VInt 2)] /\
  storesTo Ex.A (trace (Parse (rt := amd64) Ex.boundTwice)) = 2%nat.
Proof. vm_compute. repeat split. Qed.

(** In the scenario of C2 each destination has one binding and is
    written once. *)
Lemma C7_witness :
  bindingsTo Ex.A (vars Ex.fooIsTen) = 1%nat /\
  (storesTo Ex.A (trace (Parse (rt := amd64) Ex.fooIsTen)) <= 1)%nat.
Proof.
  assert (H : bindingsTo Ex.A (vars Ex.fooIsTen) = 1%nat) by reflexivity.
  split; [exact H|].
  destruct (@C7_each_binding_writes_at_most_once amd64 Ex.fooIsTen)
    as (_ & _ & _ & Hone).
  exact (Hone Ex.A H).
Defined.

(** ** The queue during Parse *)

Section LoopPanics.
Context {C : Type} (call : C -> M C unit).
Implicit Types (σ : State C) (fns : list C).

Lemma invoked_snoc (t : list (event C)) fn body :
  invoked (t ++ [Invoke fn body]) = invoked t ++ [fn].
Proof. unfold invoked. rewrite omap_app. reflexivity. Qed.

(** The loop over a list whose first part is called without a panic:
    it goes on with the rest, from the state the first part left. *)
Lemma range_app pre fns :
  forall σ,
    result (range call pre σ) = Returned tt ->
    range call (pre ++ fns) σ =
      mkRun (trace (range call pre σ) ++ trace (range call fns (final (range call pre σ))))
        (final (range call fns (final (range call pre σ))))
        (result (range call fns (final (range call pre σ)))).
Proof.
  induction pre as [|p pre IH]; intros σ Hret.
  - simpl. destruct (range call fns σ). reflexivity.
  - change ((p :: pre) ++ fns) with (p :: (pre ++ fns)).
    rewrite range_cons in Hret. cbv zeta in Hret.
    rewrite (range_cons call p (pre ++ fns)), (range_cons call p pre). cbv zeta.
    destruct (result (call p σ)) as [[]|e]; [|discriminate Hret].
    cbn [result trace final] in Hret |- *.
    rewrite (IH _ Hret). reflexivity.
Qed.

(** When the calls of [pre] return and the call of [fn] panics, the
    loop panics with that panic, in the state that call left, having
    called [pre] and [fn] and nothing of [post]. *)
Lemma range_panicking pre fn post e σ :
  result (range call pre σ) = Returned tt ->
  result (call fn (final (range call pre σ))) = Panicked e ->
  result (range call (pre ++ fn :: post) σ) = Panicked e /\
  invoked (trace (range call (pre ++ fn :: post) σ)) = pre ++ [fn] /\
  final (range call (pre ++ fn :: post) σ) = final (call fn (final (range call pre σ))).
Proof.
  intros Hret Hpanic. rewrite (range_app pre (fn :: post) σ Hret).
  rewrite range_cons. cbv zeta. rewrite Hpanic. cbn [trace final result].
  rewrite invoked_snoc.
  rewrite (proj2 (range_invoked_prefix call pre σ) tt Hret). repeat split.
Qed.

(** A loop that panics has a first call that panics. *)
Lemma range_panicked fns :
  forall σ e,
    result (range call fns σ) = Panicked e ->
    exists pre fn post,
      fns = pre ++ fn :: post /\
      result (range call pre σ) = Returned tt /\
      result (call fn (final (range call pre σ))) = Panicked e.
Proof.
  induction fns as [|f fns IH]; intros σ e Hp; [discriminate Hp|].
  rewrite range_cons in Hp. cbv zeta in Hp.
  destruct (result (call f σ)) as [[]|e'] eqn:Hf.
  - cbn [result] in Hp. destruct (IH _ _ Hp) as (pre & fn & post & -> & Hret & Hpanic).
    exists (f :: pre), fn, post. split; [reflexivity|].
    rewrite range_cons. cbv zeta. rewrite Hf. cbn [result final]. split; assumption.
  - cbn [result] in Hp. inversion Hp; subst.
    exists [], f, fns. repeat split. exact Hf.
Qed.

End LoopPanics.

Section Snapshot.
Context {rt : Runtime}.

(** C10, amended. Parse runs over the queue as it is when Parse is
    called. Whatever a call does, to the queue too, the closures Parse
    calls are closures of that queue, from its start and in its order:
    all of them when Parse returns; and when the call of a closure
    panics, after the calls before it returned, Parse panics with that
    panic at once, having called the closures up to and including that
    one and none after it. A Parse that panics has such a first
    panicking call. A binding appended while Parse runs is not called by
    that Parse; it is in the queue a later Parse runs over. Parse takes
    nothing out of the queue: when calls only append, the queue after
    Parse extends the queue before it, and with the closures of envy
    the queue is unchanged. *)
Theorem C10_parse_runs_over_queue_at_call :
  (forall (C : Type) (call' : C -> M C unit) (σ : State C),
     invoked (trace (ParseWith call' σ)) `prefix_of` vars σ /\
     (forall u, result (ParseWith call' σ) = Returned u ->
        invoked (trace (ParseWith call' σ)) = vars σ) /\
     (forall u, result (ParseWith call' (final (ParseWith call' σ))) = Returned u ->
        invoked (trace (ParseWith call' (final (ParseWith call' σ)))) =
          vars (final (ParseWith call' σ))) /\
     ((forall fn σ', vars σ' `prefix_of` vars (final (call' fn σ'))) ->
        vars σ `prefix_of` vars (final (ParseWith call' σ))) /\
     (forall pre fn post e,
        vars σ = pre ++ fn :: post ->
        result (range call' pre σ) = Returned tt ->
        result (call' fn (final (range call' pre σ))) = Panicked e ->
        result (ParseWith call' σ) = Panicked e /\
        invoked (trace (ParseWith call' σ)) = pre ++ [fn] /\
        final (ParseWith call' σ) = final (call' fn (final (range call' pre σ)))) /\
     (forall e,
        result (ParseWith call' σ) = Panicked e ->
        exists pre fn post,
          vars σ = pre ++ fn :: post /\
          result (range call' pre σ) = Returned tt /\
          result (call' fn (final (range call' pre σ))) = Panicked e /\
          invoked (trace (ParseWith call' σ)) = pre ++ [fn])) /\
  (forall σ : State closure,
     invoked (trace (Parse σ)) `prefix_of` vars σ /\
     vars (final (Parse σ)) = vars σ) /\
  (forall (σ : State closure) pre fn post e,
     vars σ = pre ++ fn :: post ->
     Forall (fun fn => resolves (environ σ) fn = true) pre ->
     resolve (environ σ) fn = inr e ->
     result (Parse σ) =
       Panicked (fmt.Errorf_failed_to_parse (fn_name fn) (typeName (fn_T fn)) e) /\
     invoked (trace (Parse σ)) = pre ++ [fn]).
Proof.
  split; [|split].
  - intros C call' σ. unfold ParseWith.
    destruct (range_invoked_prefix call' (vars σ) σ) as [Hp Ha].
    split; [exact Hp|]. split; [exact Ha|]. split; [|split; [|split]].
    + intros u Hu.
      set (σ' := final (range call' (vars σ) σ)) in *.
      destruct (range_invoked_prefix call' (vars σ') σ') as [_ Ha'].
      exact (Ha' u Hu).
    + intros Hmono.
      apply (range_vars_preserved call' (fun q1 q2 => q1 `prefix_of` q2)).
      * intros q. reflexivity.
      * intros q1 q2 q3 H12 H23. etransitivity; eassumption.
      * exact Hmono.
    + intros pre fn post e Hq Hret Hpanic. rewrite Hq.
      apply range_panicking; assumption.
    + intros e Hp'.
      destruct (range_panicked call' (vars σ) σ e Hp') as (pre & fn & post & Hq & Hret & Hpanic).
      exists pre, fn, post. split; [exact Hq|]. split; [exact Hret|].
      split; [exact Hpanic|]. rewrite Hq.
      apply (range_panicking call' pre fn post e σ Hret Hpanic).
  - intros σ. split.
    + apply (range_invoked_prefix call (vars σ) σ).
    + symmetry.
      apply (range_vars_preserved call (fun q1 q2 => q1 = q2)).
      * reflexivity.
      * intros q1 q2 q3 -> ->. reflexivity.
      * intros fn σ'. symmetry. apply call_keeps_vars.
  - intros σ pre fn post e Hq Hall He.
    rewrite (Parse_failing σ pre fn post e Hq Hall He). cbn [trace result].
    rewrite invoked_eventOf. split; reflexivity.
Qed.

End Snapshot.

Lemma Ex_run_appends j (σ : State Ex.job) :
  vars σ `prefix_of` vars (final (Ex.run j σ)).
Proof.
  unfold Ex.run, mbind, M_bind, bind.
  destruct j as [fn|fn more]; simpl.
  - destruct (environ σ !! fn_name fn) as [s|]; simpl; [|reflexivity].
    destruct (fn_cast fn s) as [cv [e|]]; reflexivity.
  - destruct (environ σ !! fn_name fn) as [s|]; simpl;
      [|exists [Ex.Plain more]; reflexivity].
    destruct (fn_cast fn s) as [cv [e|]]; exists [Ex.Plain more]; reflexivity.
Qed.

(** C10 as stated fails when a call panics: two bindings are in the
    queue when Parse is called (DEBUG=maybe), and Parse calls the first
    only. *)
Lemma C10_counterexample :
  length (vars Ex.debugMaybe) = 2%nat /\
  length (invoked (trace (Parse (rt := amd64) Ex.debugMaybe))) = 1%nat /\
  map fn_name (vars Ex.debugMaybe) = ["DEBUG"; "HOST"] /\
  map fn_name (invoked (trace (Parse (rt := amd64) Ex.debugMaybe))) = ["DEBUG"] /\
  result (Parse (rt := amd64) Ex.debugMaybe) =
    Panicked
      (fmt.Errorf_failed_to_parse (rt := amd64) "DEBUG" "bool"
         (NumError "ParseBool" "maybe" ErrSyntax)).
Proof. vm_compute. repeat split. Qed.

(** A queue whose one closure appends a binding while Parse runs: that
    Parse calls the one closure and leaves a queue of two, which the
    next Parse runs over. *)
Lemma C10_witness :
  invoked (trace (ParseWith Ex.run Ex.selfExtending)) = vars Ex.selfExtending /\
  map (fun j => fn_name (Ex.bindingOf j)) (vars Ex.selfExtending) = ["FOO"] /\
  map (fun j => fn_name (Ex.bindingOf j))
    (vars (final (ParseWith Ex.run Ex.selfExtending))) = ["FOO"; "BAR"] /\
  invoked (trace (ParseWith Ex.run (final (ParseWith Ex.run Ex.selfExtending)))) =
    vars (final (ParseWith Ex.run Ex.selfExtending)) /\
  vars Ex.selfExtending `prefix_of` vars (final (ParseWith Ex.run Ex.selfExtending)) /\
  resolve (environ Ex.debugMaybe) (pending (rt := amd64) (Register KBool Ex.A "DEBUG" false)) =
    inr (NumError "ParseBool" "maybe" ErrSyntax) /\
  result (Parse (rt := amd64) Ex.debugMaybe) =
    Panicked (fmt.Errorf_failed_to_parse (rt := amd64) "DEBUG" "bool"
                (NumError "ParseBool" "maybe" ErrSyntax)) /\
  invoked (trace (Parse (rt := amd64) Ex.debugMaybe)) =
    [pending (rt := amd64) (Register KBool Ex.A "DEBUG" false)].
Proof.
  destruct (@C10_parse_runs_over_queue_at_call amd64) as (Hgen & _ & Hfail).
  destruct (Hgen Ex.job Ex.run Ex.selfExtending) as (_ & Hall & Hnext & Hkeep & _).
  assert (He : resolve (environ Ex.debugMaybe)
                 (pending (rt := amd64) (Register KBool Ex.A "DEBUG" false)) =
               inr (NumError "ParseBool" "maybe" ErrSyntax)) by reflexivity.
  split; [exact (Hall tt eq_refl)|].
  split; [reflexivity|]. split; [reflexivity|].
  split; [exact (Hnext tt eq_refl)|].
  split; [exact (Hkeep Ex_run_appends)|].
  split; [exact He|].
  exact (Hfail Ex.debugMaybe []
           (pending (rt := amd64) (Register KBool Ex.A "DEBUG" false))
           [pending (rt := amd64) (Register KString Ex.B "HOST" "localhost")]
           (NumError "ParseBool" "maybe" ErrSyntax)
           eq_refl (List.Forall_nil _) He).
Defined.

(** ** The theorems at concrete inputs *)

(** PORT is not set: [Int("PORT", 8080)] is 8080, and after
    [IntVar(&A, "PORT", 8080)] Parse leaves 8080 in A. *)
Lemma C1_witness :
  environ (Ex.fresh ∅) !! "PORT" = None /\
  result (Int (rt := amd64) "PORT" 8080 (Ex.fresh ∅)) = Returned 8080 /\
  heap (final (Parse (rt := amd64)
                 (final (IntVar (rt := amd64) Ex.A "PORT" 8080 (Ex.fresh ∅)))))
    !! Ex.A = Some (VInt 8080).
Proof.
  assert (H : environ (Ex.fresh ∅) !! "PORT" = None) by reflexivity.
  split; [exact H|].
  destruct (@C1_unset_variable_gives_default amd64 KInt "PORT" 8080 Ex.A (Ex.fresh ∅) H)
    as ((Hacc & _) & _ & Hparse).
  split; [exact Hacc|].
  exact (proj2 (Hparse ltac:(constructor))).
Defined.

(** PORT=abc: [Int("PORT", 8080)] panics, and the text of the panic
    value names PORT, [int] and the error of [Atoi]. *)
Lemma C3_witness :
  environ (Ex.fresh {["PORT" := "abc"]}) !! "PORT" = Some "abc" /\
  converter (rt := amd64) KInt "abc" = (0, Some (NumError "Atoi" "abc" ErrSyntax)) /\
  result (Int (rt := amd64) "PORT" 8080 (Ex.fresh {["PORT" := "abc"]})) =
    Panicked
      (wrapError
         ("failed to parse PORT as int: strconv.Atoi: parsing "
            +:+ quoteASCII "abc" +:+ ": invalid syntax")
         (NumError "Atoi" "abc" ErrSyntax)).
Proof.
  assert (H : environ (Ex.fresh {["PORT" := "abc"]}) !! "PORT" = Some "abc")
    by reflexivity.
  assert (Hc : converter (rt := amd64) KInt "abc" =
                 (0, Some (NumError "Atoi" "abc" ErrSyntax))) by reflexivity.
  split; [exact H|]. split; [exact Hc|].
  exact (proj1 (@C3_rejected_value_panics amd64 KInt "PORT" 8080 0 Ex.A "abc"
                  (NumError "Atoi" "abc" ErrSyntax) _ H Hc)).
Defined.

(** HOST is set to the empty string: [String("HOST", "localhost")] is
    the empty string. *)
Lemma C6_witness :
  environ (Ex.fresh {["HOST" := EmptyString]}) !! "HOST" = Some EmptyString /\
  result (String (rt := amd64) "HOST" "localhost" (Ex.fresh {["HOST" := EmptyString]})) =
    Returned EmptyString.
Proof.
  assert (H : environ (Ex.fresh {["HOST" := EmptyString]}) !! "HOST" = Some EmptyString)
    by reflexivity.
  split; [exact H|].
  exact (proj1 (@C6_empty_text_is_kept amd64 "HOST" "localhost" Ex.A _ H)).
Defined.

(** TIMEOUT=5000000000 is five seconds. *)
Lemma C8_witness :
  environ (Ex.fresh {["TIMEOUT" := "5000000000"]}) !! "TIMEOUT" = Some "5000000000" /\
  result (Duration (rt := amd64) "TIMEOUT" 0 (Ex.fresh {["TIMEOUT" := "5000000000"]})) =
    Returned 5000000000.
Proof.
  assert (H : environ (Ex.fresh {["TIMEOUT" := "5000000000"]}) !! "TIMEOUT" =
                Some "5000000000") by reflexivity.
  split; [exact H|].
  destruct (@C8_duration_is_integer_nanoseconds amd64) as (_ & _ & Hfive & _).
  exact (Hfive "TIMEOUT" _ H).
Defined.

(** With a 32-bit [uint], WORKERS=4294967296 gives 0 workers. *)
Lemma C9_witness :
  IntSize (Runtime := i386) = W32 /\
  castUint (rt := i386) "4294967296" = (0, None) /\
  result (Uint (rt := i386) "WORKERS" 4 (Ex.fresh {["WORKERS" := "4294967296"]})) =
    Returned 0.
Proof.
  assert (H : IntSize (Runtime := i386) = W32) by reflexivity.
  split; [exact H|].
  destruct (@C9_uint_narrows_without_check i386) as (_ & _ & Hnarrow).
  destruct (Hnarrow H) as (_ & _ & Hc & Hacc).
  split; [exact Hc|].
  exact (Hacc "WORKERS" 4 (Ex.fresh {["WORKERS" := "4294967296"]}) eq_refl).
Defined.

(** * Further properties of the package *)

(** ** Accessors and bindings side by side *)

Section Agreement.
Context {rt : Runtime}.
Implicit Types (σ : State closure) (T : kind) (addr : loc).

(** X1. An accessor changes nothing: whatever the environment holds,
    it looks the variable up once, stores through no destination and
    leaves environment, cells and queue as they were, also when it
    panics. *)
Theorem X1_accessor_only_reads T name (d : goType T) σ :
  trace (accessor T name d σ) = [LookupEnv name] /\
  final (accessor T name d σ) = σ.
Proof.
  rewrite accessor_value.
  destruct (environ σ !! name) as [s|] eqn:Hn.
  - destruct (converter T s) as [v [e|]] eqn:Hc.
    + rewrite (value_rejected _ _ _ _ _ _ _ _ Hn Hc). split; reflexivity.
    + rewrite (value_converted _ _ _ _ _ _ _ Hn Hc). split; reflexivity.
  - rewrite (value_unset _ _ _ _ _ Hn). split; reflexivity.
Qed.

(** X2. A binding does at Parse time what the accessor of its type does
    at once: in the same environment, where the accessor returns a
    value the binding stores that value through its destination and
    returns, and where the accessor panics the binding panics with the
    same error and stores nothing. *)
Theorem X2_binding_agrees_with_accessor T addr name (d : goType T) σ :
  let fn := pending (Register T addr name d) in
  match result (accessor T name d σ) with
  | Returned v =>
      result (call fn σ) = Returned tt /\
      stores (trace (call fn σ)) = [(addr, box T v)] /\
      final (call fn σ) = mkState (environ σ) (<[addr := box T v]> (heap σ)) (vars σ)
  | Panicked e =>
      result (call fn σ) = Panicked e /\
      stores (trace (call fn σ)) = [] /\
      final (call fn σ) = σ
  end.
Proof.
  cbv zeta. rewrite accessor_value. unfold call, pending.
  cbn [fn_T fn_addr fn_name fn_defaultValue fn_cast reg_T reg_addr reg_name
       reg_defaultValue].
  destruct (environ σ !! name) as [s|] eqn:Hn.
  - destruct (converter T s) as [v [e|]] eqn:Hc.
    + rewrite (value_rejected _ _ _ _ _ _ _ _ Hn Hc),
        (setVar_rejected _ _ _ _ _ _ _ _ _ Hn Hc).
      repeat split.
    + rewrite (value_converted _ _ _ _ _ _ _ Hn Hc),
        (setVar_converted _ _ _ _ _ _ _ _ Hn Hc).
      repeat split.
  - rewrite (value_unset _ _ _ _ _ Hn), (setVar_unset _ _ _ _ _ _ Hn).
    repeat split.
Qed.

End Agreement.

(** ** What Parse depends on and what it touches *)

Section ParseFrame.
Context {rt : Runtime}.
Implicit Types (σ : State closure) (fn : closure) (fns : list closure).
Implicit Types (env : gmap string string) (h : gmap loc val) (l : loc).

(** The last binding of a queue that points to a cell some binding of
    the queue points to. *)
Lemma last_binding_to l fns :
  l ∈ map fn_addr fns ->
  exists pre fn post,
    fns = pre ++ fn :: post /\ fn_addr fn = l /\ l ∉ map fn_addr post.
Proof.
  induction fns as [|a fns IH]; intros Hl.
  - simpl in Hl. apply elem_of_nil in Hl. contradiction.
  - destruct (decide (l ∈ map fn_addr fns)) as [Hin|Hout].
    + destruct (IH Hin) as (pre & fn & post & -> & Ha & Hp).
      exists (a :: pre), fn, post. repeat split; assumption.
    + simpl in Hl. apply elem_of_cons in Hl as [Heq|Hin]; [|contradiction].
      exists [], a, fns. repeat split; [symmetry; exact Heq | exact Hout].
Qed.

Lemma assignAll_lookup env fns h h' l :
  l ∈ map fn_addr fns -> assignAll env fns h !! l = assignAll env fns h' !! l.
Proof.
  intros Hl. destruct (last_binding_to l fns Hl) as (pre & fn & post & -> & <- & Hp).
  rewrite !assignAll_last_writer by exact Hp. reflexivity.
Qed.

(** Assigning a queue twice leaves what assigning it once leaves. *)
Lemma assignAll_idempotent env fns h :
  assignAll env fns (assignAll env fns h) = assignAll env fns h.
Proof.
  apply map_eq. intros l.
  destruct (decide (l ∈ map fn_addr fns)) as [Hin|Hout].
  - apply assignAll_lookup, Hin.
  - apply assignAll_other, Hout.
Qed.

Lemma resolving_not_failing env pre fn post e :
  resolve env fn = inr e ->
  ~ Forall (fun fn => resolves env fn = true) (pre ++ fn :: post).
Proof.
  intros He Hall. apply Forall_app in Hall as [_ Hall].
  inversion Hall as [|? ? Hfn _]; subst.
  rewrite (resolves_inr _ _ _ He) in Hfn. discriminate.
Qed.

Lemma Parse_returns_iff σ :
  result (Parse σ) = Returned tt <->
  Forall (fun fn => resolves (environ σ) fn = true) (vars σ).
Proof.
  destruct (first_failure (environ σ) (vars σ))
    as [Hall | (pre & fn & post & e & Hq & Hpre & He)].
  - rewrite (Parse_resolving σ Hall). split; [intros _; exact Hall | reflexivity].
  - rewrite (Parse_failing σ pre fn post e Hq Hpre He). cbn [result]. split.
    + discriminate.
    + intros Hall. rewrite Hq in Hall.
      destruct (resolving_not_failing _ _ _ _ _ He Hall).
Qed.

(** X3. Parse returns exactly when every queued binding resolves, that
    is, when each variable is unset or set to a value its converter
    accepts; otherwise it panics, and the panic is the one of a queued
    binding whose conversion fails: it names that binding's variable
    and type and wraps its converter's error. *)
Theorem X3_parse_returns_iff_all_resolve σ :
  (result (Parse σ) = Returned tt <->
   Forall (fun fn => resolves (environ σ) fn = true) (vars σ)) /\
  (forall p, result (Parse σ) = Panicked p ->
     exists fn e,
       fn ∈ vars σ /\
       resolve (environ σ) fn = inr e /\
       p = fmt.Errorf_failed_to_parse (fn_name fn) (typeName (fn_T fn)) e).
Proof.
  split; [apply Parse_returns_iff|].
  destruct (first_failure (environ σ) (vars σ))
    as [Hall | (pre & fn & post & e & Hq & Hpre & He)].
  - rewrite (Parse_resolving σ Hall). discriminate.
  - rewrite (Parse_failing σ pre fn post e Hq Hpre He). cbn [result].
    intros p Hp. inversion Hp; subst. exists fn, e.
    split; [|split; [exact He | reflexivity]].
    rewrite Hq. apply elem_of_app. right. apply elem_of_cons. left. reflexivity.
Qed.

(** X4. Parse touches the destinations of the queued bindings and
    nothing else: whether it returns or panics, the environment and the
    queue are as before, and so is every cell no queued binding points
    to. *)
Theorem X4_parse_frame σ :
  environ (final (Parse σ)) = environ σ /\
  vars (final (Parse σ)) = vars σ /\
  (forall l, l ∉ map fn_addr (vars σ) -> heap (final (Parse σ)) !! l = heap σ !! l) /\
  (forall a v, (a, v) ∈ stores (trace (Parse σ)) -> a ∈ map fn_addr (vars σ)).
Proof.
  destruct (first_failure (environ σ) (vars σ))
    as [Hall | (pre & fn & post & e & Hq & Hpre & He)].
  - rewrite (Parse_resolving σ Hall). cbn [trace final environ heap vars].
    split; [reflexivity|]. split; [reflexivity|]. split.
    + intros l Hl. apply assignAll_other, Hl.
    + intros a v Hin. rewrite (stores_eventOf _ _ Hall) in Hin.
      apply list_elem_of_fmap in Hin as (f & Hf & Hfin).
      inversion Hf; subst. apply list_elem_of_fmap. exists f. split; [reflexivity | exact Hfin].
  - rewrite (Parse_failing σ pre fn post e Hq Hpre He).
    cbn [trace final environ heap vars].
    split; [reflexivity|]. split; [reflexivity|]. split.
    + intros l Hl. apply assignAll_other. rewrite Hq, map_app in Hl.
      intros Hin. apply Hl, elem_of_app. left. exact Hin.
    + intros a v Hin.
      rewrite map_app, stores_app, (stores_eventOf _ _ Hpre) in Hin.
      cbn [map] in Hin. rewrite (stores_eventOf_failed _ _ _ He), app_nil_r in Hin.
      apply list_elem_of_fmap in Hin as (f & Hf & Hfin).
      inversion Hf; subst. rewrite Hq, map_app. apply elem_of_app. left.
      apply list_elem_of_fmap. exists f. split; [reflexivity | exact Hfin].
Qed.

Lemma stored_addr env fns a v :
  (a, v) ∈ map (fun fn => (fn_addr fn, assigned env fn)) fns ->
  a ∈ map fn_addr fns.
Proof.
  intros Hin. apply list_elem_of_fmap in Hin as (f & Hf & Hfin).
  inversion Hf; subst. apply list_elem_of_fmap. exists f. split; [reflexivity | exact Hfin].
Qed.

(** X5. Parse never reads a destination: what it does and how it ends
    are the same whatever the cells hold when it is called, and every
    cell it stores through ends with the same content. *)
Theorem X5_parse_ignores_cells σ h :
  trace (Parse (withHeap h σ)) = trace (Parse σ) /\
  result (Parse (withHeap h σ)) = result (Parse σ) /\
  (forall l v, (l, v) ∈ stores (trace (Parse σ)) ->
     heap (final (Parse (withHeap h σ))) !! l = heap (final (Parse σ)) !! l).
Proof.
  destruct (first_failure (environ σ) (vars σ))
    as [Hall | (pre & fn & post & e & Hq & Hpre & He)].
  - rewrite (Parse_resolving σ Hall), (Parse_resolving (withHeap h σ) Hall).
    cbn [trace final result heap vars environ withHeap].
    split; [reflexivity|]. split; [reflexivity|].
    intros l v Hl. rewrite (stores_eventOf _ _ Hall) in Hl.
    apply assignAll_lookup, (stored_addr _ _ _ _ Hl).
  - rewrite (Parse_failing σ pre fn post e Hq Hpre He),
      (Parse_failing (withHeap h σ) pre fn post e Hq Hpre He).
    cbn [trace final result heap vars environ withHeap].
    split; [reflexivity|]. split; [reflexivity|].
    intros l v Hl.
    rewrite map_app, stores_app, (stores_eventOf _ _ Hpre) in Hl.
    cbn [map] in Hl. rewrite (stores_eventOf_failed _ _ _ He), app_nil_r in Hl.
    apply assignAll_lookup, (stored_addr _ _ _ _ Hl).
Qed.

End ParseFrame.

(** ** Parse again, shared destinations, late environments *)

Section ParseCompose.
Context {rt : Runtime}.
Implicit Types (σ : State closure) (fn : closure) (fns : list closure).

(** X6. Parse can be replayed: called again on the state it left, with
    the environment unchanged, it does the same lookups and stores in
    the same order, ends the same way (returns, or panics with the same
    error) and leaves the state as it found it. *)
Theorem X6_parse_replay σ :
  trace (Parse (final (Parse σ))) = trace (Parse σ) /\
  result (Parse (final (Parse σ))) = result (Parse σ) /\
  final (Parse (final (Parse σ))) = final (Parse σ).
Proof.
  destruct (first_failure (environ σ) (vars σ))
    as [Hall | (pre & fn & post & e & Hq & Hpre & He)].
  - rewrite (Parse_resolving σ Hall). cbn [final].
    set (σ' := mkState _ _ _).
    rewrite (Parse_resolving σ' Hall). subst σ'. cbn [trace final result environ heap vars].
    rewrite assignAll_idempotent. repeat split.
  - rewrite (Parse_failing σ pre fn post e Hq Hpre He). cbn [final].
    set (σ' := mkState _ _ _).
    rewrite (Parse_failing σ' pre fn post e Hq Hpre He). subst σ'.
    cbn [trace final result environ heap vars].
    rewrite assignAll_idempotent. repeat split.
Qed.

(** X7. When several bindings share a destination and Parse returns,
    the destination holds the value of the binding registered last
    among them. *)
Theorem X7_last_registered_binding_wins σ pre fn post :
  vars σ = pre ++ fn :: post ->
  Forall (fun fn => resolves (environ σ) fn = true) (vars σ) ->
  fn_addr fn ∉ map fn_addr post ->
  result (Parse σ) = Returned tt /\
  heap (final (Parse σ)) !! fn_addr fn = Some (assigned (environ σ) fn).
Proof.
  intros Hq Hall Hlast. rewrite (Parse_resolving σ Hall). cbn [final result heap].
  split; [reflexivity|]. rewrite Hq. apply assignAll_last_writer, Hlast.
Qed.

(** X8. The environment is read when Parse runs, not when a binder is
    called: registering and then changing the environment leaves the
    state that registering in the changed environment leaves, so Parse
    resolves every binding against the environment it is called in. *)
Theorem X8_environment_read_at_parse cs σ env :
  withEnviron env (final (registerAll cs σ)) =
    final (registerAll cs (withEnviron env σ)) /\
  Parse (withEnviron env (final (registerAll cs σ))) =
    Parse (final (registerAll cs (withEnviron env σ))) /\
  (result (Parse (withEnviron env (final (registerAll cs σ)))) = Returned tt <->
   Forall (fun fn => resolves env fn = true) (vars σ ++ map pending cs)).
Proof.
  assert (Heq : withEnviron env (final (registerAll cs σ)) =
                  final (registerAll cs (withEnviron env σ))).
  { rewrite !registerAll_run. reflexivity. }
  split; [exact Heq|]. split; [rewrite Heq; reflexivity|].
  rewrite Parse_returns_iff, registerAll_run. reflexivity.
Qed.

Lemma converter_empty T :
  T <> KString -> T <> KFloat64 ->
  exists f (v : goType T), converter T EmptyString = (v, Some (NumError f EmptyString ErrSyntax)).
Proof.
  intros Hs Hf.
  destruct T; try contradiction; destruct rt as [[] q pf];
    (eexists; eexists; vm_compute; reflexivity).
Qed.

(** X9. For the integer types, bool and duration, a variable that is
    set to the empty string is not treated as unset: the accessor and
    the binding panic with a syntax error of the parser, whatever the
    default. *)
Theorem X9_empty_value_panics T name (d : goType T) addr σ :
  T <> KString -> T <> KFloat64 ->
  environ σ !! name = Some EmptyString ->
  exists f,
    result (accessor T name d σ) =
      Panicked (fmt.Errorf_failed_to_parse name (typeName T)
                  (NumError f EmptyString ErrSyntax)) /\
    result (call (pending (Register T addr name d)) σ) =
      Panicked (fmt.Errorf_failed_to_parse name (typeName T)
                  (NumError f EmptyString ErrSyntax)) /\
    final (call (pending (Register T addr name d)) σ) = σ.
Proof.
  intros Hs Hf Hn. destruct (converter_empty T Hs Hf) as (f & v & Hc).
  exists f. rewrite accessor_value, (value_rejected _ _ _ _ _ _ _ _ Hn Hc).
  split; [reflexivity|].
  unfold call, pending.
  cbn [fn_T fn_addr fn_name fn_defaultValue fn_cast reg_T reg_addr reg_name
       reg_defaultValue].
  rewrite (setVar_rejected _ _ _ _ _ _ _ _ _ Hn Hc). split; reflexivity.
Qed.

End ParseCompose.

Lemma X7_witness :
  Forall (fun fn => resolves (environ Ex.boundTwice) fn = true) (vars Ex.boundTwice) /\
  map fn_name (vars Ex.boundTwice) = ["LOW"; "HIGH"] /\
  heap (final (Parse (rt := amd64) Ex.boundTwice)) !! Ex.A = Some (VInt 2).
Proof.
  assert (H : Forall (fun fn => resolves (environ Ex.boundTwice) fn = true)
                (vars Ex.boundTwice)) by (repeat constructor).
  split; [exact H|]. split; [reflexivity|].
  exact (proj2 (@X7_last_registered_binding_wins amd64 Ex.boundTwice
                  [pending (Register KInt Ex.A "LOW" 1)]
                  (pending (Register KInt Ex.A "HIGH" 2)) []
                  eq_refl H ltac:(simpl; apply not_elem_of_nil))).
Defined.

Lemma X9_witness :
  environ (Ex.fresh {["DEBUG" := EmptyString]}) !! "DEBUG" = Some EmptyString /\
  exists f,
    result (Bool (rt := amd64) "DEBUG" true (Ex.fresh {["DEBUG" := EmptyString]})) =
      Panicked (fmt.Errorf_failed_to_parse (rt := amd64) "DEBUG" "bool"
                  (NumError f EmptyString ErrSyntax)).
Proof.
  assert (H : environ (Ex.fresh {["DEBUG" := EmptyString]}) !! "DEBUG" = Some EmptyString)
    by reflexivity.
  split; [exact H|].
  destruct (@X9_empty_value_panics amd64 KBool "DEBUG" true Ex.A _
              ltac:(discriminate) ltac:(discriminate) H) as (f & Hacc & _).
  exists f. exact Hacc.
Defined.

(** ** The converters on decimal literals *)

Section Decimal.

Lemma byte_digit c :
  isDigit c = true -> 0 <= byte c - byte "0" <= 9.
Proof.
  unfold isDigit. intros H. apply andb_true_iff in H as [H1 H2].
  apply Z.leb_le in H1, H2. change (byte "0") with 48 in *.
  change (byte "9") with 57 in *. lia.
Qed.

Lemma decimalFrom_mono s :
  forall n m, n <= m -> decimalFrom n s <= decimalFrom m s.
Proof.
  induction s as [|c s IH]; intros n m Hnm; simpl; [exact Hnm|].
  apply IH. lia.
Qed.

Lemma decimalFrom_ge s :
  forall n, allDigits s = true -> 0 <= n -> n <= decimalFrom n s.
Proof.
  induction s as [|c s IH]; intros n Hd Hn; simpl; [lia|].
  simpl in Hd. apply andb_true_iff in Hd as [Hc Hs].
  pose proof (byte_digit c Hc) as Hb.
  etransitivity; [|apply IH; [exact Hs | lia]]. lia.
Qed.

(** A string of [k] digits read after [n] stays below [(n + 1) * 10^k]. *)
Lemma decimalFrom_lt s :
  forall n, allDigits s = true -> 0 <= n ->
    decimalFrom n s < (n + 1) * 10 ^ len s.
Proof.
  induction s as [|c s IH]; intros n Hd Hn.
  - simpl. change (len EmptyString) with 0. lia.
  - simpl in Hd. apply andb_true_iff in Hd as [Hc Hs].
    pose proof (byte_digit c Hc) as Hb. simpl decimalFrom.
    assert (Hlen : len (String.String c s) = len s + 1).
    { unfold len. simpl String.length. lia. }
    assert (Hl0 : 0 <= len s) by (unfold len; lia).
    rewrite Hlen, Z.pow_add_r by lia. change (10 ^ 1) with 10.
    eapply Z.lt_le_trans; [apply IH; [exact Hs | lia]|].
    assert (Hp : 0 < 10 ^ len s) by (apply Z.pow_pos_nonneg; lia).
    nia.
Qed.

Lemma wrap64_small x : 0 <= x < 2 ^ 64 -> to_unsigned 64 x = x.
Proof. intros H. unfold to_unsigned. apply Z.mod_small, H. Qed.

Lemma wrap64_once x : 2 ^ 64 <= x < 2 * 2 ^ 64 -> to_unsigned 64 x = x - 2 ^ 64.
Proof.
  intros H. unfold to_unsigned.
  replace x with (x - 2 ^ 64 + 1 * 2 ^ 64) at 1 by lia.
  rewrite Z_mod_plus_full. apply Z.mod_small. lia.
Qed.

(** What the digit loop of [ParseUint] returns, by how it ends. *)
Lemma digits_spec maxVal s :
  0 <= maxVal <= strconv.maxUint64 ->
  forall n r oe,
    0 <= n <= maxVal ->
    strconv.digits maxVal s n = (r, oe) ->
    match oe with
    | None => allDigits s = true /\ r = decimalFrom n s /\ r <= maxVal
    | Some ErrRange => r = maxVal /\ (allDigits s = true -> maxVal < decimalFrom n s)
    | Some ErrSyntax => r = 0 /\ allDigits s = false
    end.
Proof.
  intros Hmax. unfold strconv.maxUint64 in Hmax.
  assert (H64 : 2 ^ 64 = 18446744073709551616) by reflexivity.
  induction s as [|c s IH]; intros n r oe Hn Hd.
  - simpl in Hd. inversion Hd; subst. simpl. repeat split; lia.
  - simpl in Hd. change ((byte "0" <=? byte c) && (byte c <=? byte "9")) with (isDigit c) in Hd.
    simpl allDigits. destruct (isDigit c) eqn:Hc.
    2:{ inversion Hd; subst. split; reflexivity. }
    pose proof (byte_digit c Hc) as Hb.
    change (strconv.maxUint64 / 10 + 1) with 1844674407370955162 in Hd.
    simpl decimalFrom. rewrite andb_true_l.
    destruct (1844674407370955162 <=? n) eqn:Hcut.
    { apply Z.leb_le in Hcut. inversion Hd; subst. split; [reflexivity|].
      intros Hs. eapply Z.lt_le_trans; [|apply decimalFrom_ge; [exact Hs | lia]]. lia. }
    apply Z.leb_gt in Hcut.
    rewrite (wrap64_small (n * 10)) in Hd by lia.
    destruct (Z_lt_dec (n * 10 + (byte c - byte "0")) (2 ^ 64)) as [Hsmall|Hbig].
    + rewrite (wrap64_small (n * 10 + (byte c - byte "0"))) in Hd by lia.
      destruct (n * 10 + (byte c - byte "0") <? n * 10) eqn:Hlt.
      { apply Z.ltb_lt in Hlt. lia. }
      simpl orb in Hd.
      destruct (maxVal <? n * 10 + (byte c - byte "0")) eqn:Hov.
      * apply Z.ltb_lt in Hov. inversion Hd; subst. split; [reflexivity|].
        intros Hs. eapply Z.lt_le_trans; [exact Hov|].
        apply decimalFrom_ge; [exact Hs | lia].
      * apply Z.ltb_ge in Hov. eapply IH; [|exact Hd]. lia.
    + rewrite (wrap64_once (n * 10 + (byte c - byte "0"))) in Hd by lia.
      destruct (n * 10 + (byte c - byte "0") - 2 ^ 64 <? n * 10) eqn:Hlt.
      2:{ apply Z.ltb_ge in Hlt. lia. }
      simpl orb in Hd. inversion Hd; subst. split; [reflexivity|].
      intros Hs. eapply Z.lt_le_trans; [|apply decimalFrom_ge; [exact Hs | lia]]. lia.
Qed.

End Decimal.

Section Unsigned.
Context {rt : Runtime}.

Lemma width_bounds b :
  (strconv.width b = 32 \/ strconv.width b = 64) /\
  0 <= 2 ^ strconv.width b - 1 <= strconv.maxUint64.
Proof.
  unfold strconv.width, strconv.maxUint64.
  destruct b; [destruct IntSize|]; simpl bits; split; (auto || (simpl; lia)).
Qed.

(** What [ParseUint] returns, by how it ends. *)
Lemma ParseUint_spec s b r oe :
  strconv.ParseUint s b = (r, oe) ->
  match oe with
  | None =>
      s <> EmptyString /\ allDigits s = true /\ r = decimal s /\
      0 <= r <= 2 ^ strconv.width b - 1
  | Some e =>
      exists k,
        e = NumError "ParseUint" s k /\
        match k with
        | ErrSyntax => r = 0 /\ (s = EmptyString \/ allDigits s = false)
        | ErrRange =>
            r = 2 ^ strconv.width b - 1 /\ s <> EmptyString /\
            (allDigits s = true -> 2 ^ strconv.width b - 1 < decimal s)
        end
  end.
Proof.
  unfold strconv.ParseUint. destruct (String.eqb_spec s EmptyString) as [->|Hne].
  - intros H. inversion H; subst. exists ErrSyntax. repeat split. left. reflexivity.
  - destruct (width_bounds b) as [_ Hw].
    destruct (strconv.digits (2 ^ strconv.width b - 1) s 0) as [n [k|]] eqn:Hd;
      intros H; inversion H; subst;
      pose proof (digits_spec _ s Hw 0 _ _ ltac:(lia) Hd) as Hs; cbv beta iota in Hs.
    + exists k. split; [reflexivity|]. destruct k.
      * destruct Hs as [Hr Ha]. split; [exact Hr|]. right. exact Ha.
      * destruct Hs as [Hr Ha]. split; [exact Hr|]. split; [exact Hne | exact Ha].
    + destruct Hs as (Ha & Hr & Hle). split; [exact Hne|]. split; [exact Ha|].
      split; [exact Hr|]. split; [|exact Hle].
      rewrite Hr. apply decimalFrom_ge; [exact Ha | lia].
Qed.

(** [ParseUint] accepts the strings of digits whose number fits. *)
Lemma ParseUint_accepts s b :
  s <> EmptyString -> allDigits s = true -> decimal s <= 2 ^ strconv.width b - 1 ->
  strconv.ParseUint s b = (decimal s, None).
Proof.
  intros Hne Ha Hfit.
  destruct (strconv.ParseUint s b) as [r [e|]] eqn:Hp;
    pose proof (ParseUint_spec s b _ _ Hp) as Hs; cbv beta iota in Hs.
  - destruct Hs as (k & _ & Hk). destruct k.
    + destruct Hk as (_ & [He|Hd]); [contradiction | congruence].
    + destruct Hk as (_ & _ & Hbig). specialize (Hbig Ha). lia.
  - destruct Hs as (_ & _ & -> & _). reflexivity.
Qed.

(** X10. [castUint64], the converter of [Uint64] and [Uint64Var],
    accepts exactly the non-empty strings of decimal digits whose
    number is below 2^64, and gives that number: no sign, no space, no
    underscore, no other base. When it fails it gives 0 and the
    [ParseUint] error about the whole string. *)
Theorem X10_castUint64_decimal s :
  (forall r,
     castUint64 s = (r, None) <->
     s <> EmptyString /\ allDigits s = true /\ decimal s < 2 ^ 64 /\ r = decimal s) /\
  (forall r e,
     castUint64 s = (r, Some e) ->
     r = 0 /\ exists k, e = NumError "ParseUint" s k) /\
  (forall name d (σ : State closure),
     environ σ !! name = Some s ->
     s <> EmptyString -> allDigits s = true -> decimal s < 2 ^ 64 ->
     result (Uint64 name d σ) = Returned (decimal s)).
Proof.
  assert (Hacc : s <> EmptyString -> allDigits s = true -> decimal s < 2 ^ 64 ->
                 castUint64 s = (decimal s, None)).
  { intros Hne Ha Hfit. unfold castUint64.
    rewrite (ParseUint_accepts s strconv.Bits64 Hne Ha);
      [reflexivity | simpl strconv.width; lia]. }
  split; [|split].
  - intros r. split.
    + unfold castUint64.
      destruct (strconv.ParseUint s strconv.Bits64) as [n [e|]] eqn:Hp;
        intros H; inversion H; subst.
      destruct (ParseUint_spec _ _ _ _ Hp) as (Hne & Ha & Hr & Hrange).
      simpl strconv.width in Hrange. repeat split; try assumption. lia.
    + intros (Hne & Ha & Hfit & ->). apply Hacc; assumption.
  - intros r e. unfold castUint64.
    destruct (strconv.ParseUint s strconv.Bits64) as [n [e'|]] eqn:Hp;
      intros H; inversion H; subst.
    split; [reflexivity|].
    destruct (ParseUint_spec _ _ _ _ Hp) as (k & -> & _). exists k. reflexivity.
  - intros name d σ Hn Hne Ha Hfit. unfold Uint64.
    erewrite value_converted; [reflexivity | exact Hn | apply Hacc; assumption].
Qed.

(** X11. Where [uint] has 64 bits nothing is cut off: [castUint], the
    converter of [Uint] and [UintVar], is [castUint64]. *)
Theorem X11_castUint_on_64_bits s :
  IntSize = W64 -> castUint s = castUint64 s.
Proof.
  intros Hw. unfold castUint. destruct (castUint64 s) as [r [e|]] eqn:Hc.
  - unfold castUint64 in Hc.
    destruct (strconv.ParseUint s strconv.Bits64) as [n [e'|]]; inversion Hc; reflexivity.
  - unfold castUint64 in Hc.
    destruct (strconv.ParseUint s strconv.Bits64) as [n [e'|]] eqn:Hp; inversion Hc; subst.
    destruct (ParseUint_spec _ _ _ _ Hp) as (_ & _ & _ & Hrange).
    simpl strconv.width in Hrange. rewrite Hw. simpl bits.
    rewrite wrap64_small by lia. reflexivity.
Qed.

End Unsigned.

Lemma X11_witness :
  IntSize (Runtime := amd64) = W64 /\
  castUint (rt := amd64) "4294967296" = (4294967296, None).
Proof.
  split; [reflexivity|].
  rewrite (@X11_castUint_on_64_bits amd64 "4294967296" eq_refl). reflexivity.
Defined.

Section Signed.
Context {rt : Runtime}.

Lemma to_signed64_id z : - 2 ^ 63 <= z < 2 ^ 63 -> to_signed 64 z = z.
Proof.
  intros H. unfold to_signed. cbv zeta. change (2 ^ (64 - 1)) with (2 ^ 63).
  assert (H64 : 2 ^ 64 = 2 * 2 ^ 63) by reflexivity.
  destruct (Z_lt_dec z 0) as [Hneg|Hpos].
  - assert (Hm : z mod 2 ^ 64 = z + 2 ^ 64).
    { replace z with (z + 2 ^ 64 + (-1) * 2 ^ 64) at 1 by lia.
      rewrite Z_mod_plus_full. apply Z.mod_small. lia. }
    rewrite Hm.
    destruct (z + 2 ^ 64 <? 2 ^ 63) eqn:Hlt; [apply Z.ltb_lt in Hlt|]; lia.
  - rewrite Z.mod_small by lia.
    destruct (z <? 2 ^ 63) eqn:Hlt; [reflexivity | apply Z.ltb_ge in Hlt; lia].
Qed.

Lemma to_signed_range w z :
  0 < w -> - 2 ^ (w - 1) <= to_signed w z < 2 ^ (w - 1).
Proof.
  intros Hw. unfold to_signed. cbv zeta.
  assert (Hp : 2 ^ w = 2 * 2 ^ (w - 1)).
  { replace w with (w - 1 + 1) at 1 by lia. rewrite Z.pow_add_r by lia. lia. }
  assert (Hpos : 0 < 2 ^ (w - 1)) by (apply Z.pow_pos_nonneg; lia).
  pose proof (Z.mod_pos_bound z (2 ^ w) ltac:(lia)) as Hm.
  destruct (z mod 2 ^ w <? 2 ^ (w - 1)) eqn:Hlt;
    [apply Z.ltb_lt in Hlt | apply Z.ltb_ge in Hlt]; lia.
Qed.

Lemma to_signed_id w z :
  w = 32 \/ w = 64 -> - 2 ^ (w - 1) <= z < 2 ^ (w - 1) -> to_signed w z = z.
Proof.
  intros [-> | ->] H; [|apply to_signed64_id, H].
  unfold to_signed. cbv zeta. change (2 ^ (32 - 1)) with 2147483648 in *.
  change (2 ^ 32) with 4294967296.
  destruct (Z_lt_dec z 0) as [Hneg|Hpos].
  - assert (Hm : z mod 4294967296 = z + 4294967296).
    { replace z with (z + 4294967296 + (-1) * 4294967296) at 1 by lia.
      rewrite Z_mod_plus_full. apply Z.mod_small. lia. }
    rewrite Hm.
    destruct (z + 4294967296 <? 2147483648) eqn:Hlt; [apply Z.ltb_lt in Hlt|]; lia.
  - rewrite Z.mod_small by lia.
    destruct (z <? 2147483648) eqn:Hlt; [reflexivity | apply Z.ltb_ge in Hlt; lia].
Qed.

(** The range check of [ParseInt] on the magnitude [un] read by
    [ParseUint]. *)
Lemma ParseInt_tail (neg : bool) w un s0 r oe :
  w = 32 \/ w = 64 -> 0 <= un ->
  (if negb neg && (2 ^ (w - 1) <=? un) then
     (to_signed 64 (2 ^ (w - 1) - 1), Some (strconv.rangeError "ParseInt" s0))
   else if neg && (2 ^ (w - 1) <? un) then
     (to_signed 64 (- 2 ^ (w - 1)), Some (strconv.rangeError "ParseInt" s0))
   else
     (if neg then to_signed 64 (- to_signed 64 un) else to_signed 64 un, None))
  = (r, oe) ->
  match oe with
  | None =>
      r = (if neg then - un else un) /\
      - 2 ^ (w - 1) <= r < 2 ^ (w - 1)
  | Some e =>
      e = NumError "ParseInt" s0 ErrRange /\
      ~ (- 2 ^ (w - 1) <= (if neg then - un else un) < 2 ^ (w - 1))
  end.
Proof.
  intros Hw Hun.
  assert (Hc : 0 < 2 ^ (w - 1) <= 2 ^ 63).
  { destruct Hw as [-> | ->]; simpl; lia. }
  destruct neg; cbn [negb andb].
  - destruct (2 ^ (w - 1) <? un) eqn:Hlt; intros H; inversion H; subst.
    + apply Z.ltb_lt in Hlt. split; [reflexivity | lia].
    + apply Z.ltb_ge in Hlt.
      destruct (Z.eq_dec un (2 ^ 63)) as [->|Hne].
      * split; [reflexivity|]. change (to_signed 64 (- to_signed 64 (2 ^ 63))) with (- 2 ^ 63).
        lia.
      * rewrite (to_signed64_id un) by lia. rewrite to_signed64_id by lia. lia.
  - destruct (2 ^ (w - 1) <=? un) eqn:Hle; intros H; inversion H; subst.
    + apply Z.leb_le in Hle. split; [reflexivity | lia].
    + apply Z.leb_gt in Hle. rewrite to_signed64_id by lia. lia.
Qed.

Lemma literal_cons c rest :
  literal (String.String c rest) =
    let body := if Ascii.eqb c "+" || Ascii.eqb c "-" then rest else String.String c rest in
    if negb (String.eqb body EmptyString) && allDigits body
    then Some (if Ascii.eqb c "-" then - decimal body else decimal body)
    else None.
Proof.
  unfold literal. cbv zeta.
  destruct (if Ascii.eqb c "+" || Ascii.eqb c "-" then rest else String.String c rest);
    reflexivity.
Qed.

(** What [ParseInt] returns, by how it ends. *)
Lemma ParseInt_spec s b r oe :
  strconv.ParseInt s b = (r, oe) ->
  match oe with
  | None =>
      literal s = Some r /\
      - 2 ^ (strconv.width b - 1) <= r < 2 ^ (strconv.width b - 1)
  | Some e =>
      (exists k, e = NumError "ParseInt" s k) /\
      forall z, literal s = Some z ->
        ~ (- 2 ^ (strconv.width b - 1) <= z < 2 ^ (strconv.width b - 1))
  end.
Proof.
  destruct s as [|c rest].
  - intros H. inversion H; subst. split; [eexists; reflexivity | discriminate].
  - unfold strconv.ParseInt. cbv zeta. rewrite literal_cons. cbv zeta.
    set (body := if Ascii.eqb c "+" || Ascii.eqb c "-" then rest else String.String c rest).
    destruct (width_bounds b) as [Hw Hmax].
    destruct (strconv.ParseUint body b) as [un [e|]] eqn:Hp;
      pose proof (ParseUint_spec _ _ _ _ Hp) as Hs; cbv beta iota in Hs.
    + destruct Hs as (k & -> & Hk). destruct k.
      * intros H. inversion H; subst. split; [eexists; reflexivity|].
        destruct Hk as (_ & [-> | Hd]); [discriminate|].
        rewrite Hd, andb_false_r. discriminate.
      * destruct Hk as (Hun & Hne & Hbig). intros H.
        assert (Hun0 : 0 <= un) by lia.
        pose proof (ParseInt_tail _ _ _ _ _ _ Hw Hun0 H) as Ht.
        destruct oe as [e|]; cbv beta iota in Ht.
        -- destruct Ht as (-> & _). split; [eexists; reflexivity|].
           intros z. destruct (allDigits body) eqn:Ha; [|rewrite andb_false_r; discriminate].
           specialize (Hbig eq_refl). rewrite andb_true_r.
           destruct (negb (body =? EmptyString)%string); [|discriminate].
           intros Hz. inversion Hz; subst.
           assert (Hp2 : 2 ^ strconv.width b = 2 * 2 ^ (strconv.width b - 1)).
           { destruct Hw as [-> | ->]; reflexivity. }
           destruct (Ascii.eqb c "-"); lia.
        -- exfalso. destruct Ht as (Hr1 & Hr).
           assert (Hp2 : 2 ^ strconv.width b = 2 * 2 ^ (strconv.width b - 1)).
           { destruct Hw as [-> | ->]; reflexivity. }
           assert (Hpos : 1 < 2 ^ (strconv.width b - 1)).
           { destruct Hw as [-> | ->]; simpl; lia. }
           subst un. destruct (Ascii.eqb c "-"); lia.
    + destruct Hs as (Hne & Ha & Hun & Hrange). intros H.
      assert (Hun0 : 0 <= un) by lia.
      pose proof (ParseInt_tail _ _ _ _ _ _ Hw Hun0 H) as Ht.
      rewrite Ha, andb_true_r.
      destruct (String.eqb_spec body EmptyString) as [He|_]; [contradiction|].
      cbn [negb]. subst un.
      destruct oe as [e|]; cbv beta iota in Ht.
      * destruct Ht as (-> & Hout). split; [eexists; reflexivity|].
        intros z Hz. inversion Hz; subst. exact Hout.
      * destruct Ht as (-> & Hin). split; [reflexivity | exact Hin].
Qed.

(** [ParseInt] accepts the signed decimal literals whose number fits. *)
Lemma ParseInt_accepts s b z :
  literal s = Some z ->
  - 2 ^ (strconv.width b - 1) <= z < 2 ^ (strconv.width b - 1) ->
  strconv.ParseInt s b = (z, None).
Proof.
  intros Hl Hfit.
  destruct (strconv.ParseInt s b) as [r [e|]] eqn:Hp;
    pose proof (ParseInt_spec _ _ _ _ Hp) as Hs; cbv beta iota in Hs.
  - destruct Hs as (_ & Hout). destruct (Hout z Hl Hfit).
  - destruct Hs as (Hr & _). congruence.
Qed.

End Signed.

Section AtoiFacts.
Context {rt : Runtime}.

Lemma atoi_step_digit c :
  (9 <? to_unsigned 8 (byte c - byte "0")) = negb (isDigit c).
Proof. destruct c as [[] [] [] [] [] [] [] []]; vm_compute; reflexivity. Qed.

Lemma atoi_step_value c :
  isDigit c = true -> to_unsigned 8 (byte c - byte "0") = byte c - byte "0".
Proof.
  destruct c as [[] [] [] [] [] [] [] []]; vm_compute; intros H;
    (reflexivity || discriminate H).
Qed.

(** The loop of the fast path of [Atoi] reads strings of digits. *)
Lemma atoi_digits_spec s :
  forall n,
    strconv.atoi_digits s n =
      if allDigits s then Some (decimalFrom n s) else None.
Proof.
  induction s as [|c s IH]; intros n; [reflexivity|].
  simpl. rewrite atoi_step_digit. destruct (isDigit c) eqn:Hc; [|reflexivity].
  cbn [negb andb]. rewrite (atoi_step_value c Hc). apply IH.
Qed.

Lemma int_width : bits IntSize = 32 \/ bits IntSize = 64.
Proof. destruct IntSize; auto. Qed.

Lemma atoi_slow_spec s r oe :
  strconv.atoi_slow s = (r, oe) ->
  match oe with
  | None =>
      literal s = Some r /\
      - 2 ^ (bits IntSize - 1) <= r < 2 ^ (bits IntSize - 1)
  | Some e =>
      (exists k, e = NumError "Atoi" s k) /\
      forall z, literal s = Some z ->
        ~ (- 2 ^ (bits IntSize - 1) <= z < 2 ^ (bits IntSize - 1))
  end.
Proof.
  unfold strconv.atoi_slow.
  destruct (strconv.ParseInt s strconv.BitsInt) as [i64 [e|]] eqn:Hp;
    pose proof (ParseInt_spec _ _ _ _ Hp) as Hs; cbv beta iota in Hs;
    change (strconv.width strconv.BitsInt) with (bits IntSize) in Hs.
  - destruct Hs as ((k & ->) & Hout). intros H. inversion H; subst.
    split; [exists k; reflexivity | exact Hout].
  - destruct Hs as (Hl & Hin). intros H. inversion H; subst.
    rewrite (to_signed_id _ _ int_width Hin). split; assumption.
Qed.

Lemma len_cons c s : len (String.String c s) = len s + 1.
Proof. unfold len. simpl String.length. lia. Qed.

Lemma len_nonneg s : 0 <= len s.
Proof. unfold len. lia. Qed.

Lemma len_zero s : len s < 1 -> s = EmptyString.
Proof. destruct s; [reflexivity|]. rewrite len_cons. pose proof (len_nonneg s). lia. Qed.

(** A short string of digits is a number of the width of [int]. *)
Lemma short_decimal_fits body bound :
  allDigits body = true ->
  (bits IntSize = 32 /\ bound = 9 \/ bits IntSize = 64 /\ bound = 18) ->
  len body <= bound ->
  0 <= decimal body < 2 ^ (bits IntSize - 1).
Proof.
  intros Ha Hb Hlen. unfold decimal. split.
  - apply (decimalFrom_ge body 0 Ha). lia.
  - pose proof (decimalFrom_lt body 0 Ha ltac:(lia)) as Hlt.
    assert (Hpow : 10 ^ len body <= 10 ^ bound)
      by (apply Z.pow_le_mono_r; [lia | exact Hlen]).
    destruct Hb as [[-> ->] | [-> ->]]; simpl in *; lia.
Qed.

(** What [Atoi] returns, by how it ends. *)
Lemma Atoi_spec s r oe :
  strconv.Atoi s = (r, oe) ->
  match oe with
  | None =>
      literal s = Some r /\
      - 2 ^ (bits IntSize - 1) <= r < 2 ^ (bits IntSize - 1)
  | Some e =>
      (exists k, e = NumError "Atoi" s k) /\
      forall z, literal s = Some z ->
        ~ (- 2 ^ (bits IntSize - 1) <= z < 2 ^ (bits IntSize - 1))
  end.
Proof.
  unfold strconv.Atoi. cbv zeta.
  destruct ((bits IntSize =? 32) && ((0 <? len s) && (len s <? 10))
            || (bits IntSize =? 64) && ((0 <? len s) && (len s <? 19))) eqn:Hfast;
    [|apply atoi_slow_spec].
  destruct s as [|c rest]; [apply atoi_slow_spec|].
  assert (Hshort : bits IntSize = 32 /\ len rest + 1 <= 9 \/
                   bits IntSize = 64 /\ len rest + 1 <= 18).
  { rewrite len_cons in Hfast. destruct IntSize; cbn [bits] in Hfast |- *.
    - change (32 =? 32) with true in Hfast. change (32 =? 64) with false in Hfast.
      cbn [andb] in Hfast. rewrite orb_false_r in Hfast.
      left. split; [reflexivity|].
      apply andb_true_iff in Hfast as [_ H]. apply Z.ltb_lt in H. lia.
    - change (64 =? 32) with false in Hfast. change (64 =? 64) with true in Hfast.
      cbn [andb orb] in Hfast.
      right. split; [reflexivity|].
      apply andb_true_iff in Hfast as [_ H]. apply Z.ltb_lt in H. lia. }
  rewrite literal_cons. cbv zeta.
  replace (Ascii.eqb c "+" || Ascii.eqb c "-") with (Ascii.eqb c "-" || Ascii.eqb c "+")
    by apply orb_comm.
  destruct (Ascii.eqb c "-" || Ascii.eqb c "+") eqn:Hsigned; cbn [andb].
  - destruct (len rest <? 1) eqn:Hl1.
    + apply Z.ltb_lt, len_zero in Hl1. subst rest.
      intros H. inversion H; subst. split; [eexists; reflexivity | discriminate].
    + apply Z.ltb_ge in Hl1. rewrite atoi_digits_spec.
      assert (Hne : (rest =? EmptyString)%string = false).
      { destruct rest; [change (len EmptyString) with 0 in Hl1; lia | reflexivity]. }
      rewrite Hne. cbn [negb andb].
      destruct (allDigits rest) eqn:Ha; intros H; inversion H; subst.
      * split; [reflexivity|].
        assert (Hfit : 0 <= decimal rest < 2 ^ (bits IntSize - 1)).
        { destruct Hshort as [[Hb Hl] | [Hb Hl]].
          - apply (short_decimal_fits rest 9 Ha); [left; auto | lia].
          - apply (short_decimal_fits rest 18 Ha); [right; auto | lia]. }
        destruct (Ascii.eqb c "-"); unfold decimal in *; lia.
      * split; [eexists; reflexivity | discriminate].
  - rewrite atoi_digits_spec.
    change ((String.String c rest =? EmptyString)%string) with false. cbn [negb andb].
    apply orb_false_iff in Hsigned as [Hminus _]. rewrite Hminus.
    destruct (allDigits (String.String c rest)) eqn:Ha; intros H; inversion H; subst.
    + split; [reflexivity|].
      assert (Hfit : 0 <= decimal (String.String c rest) < 2 ^ (bits IntSize - 1)).
      { destruct Hshort as [[Hb Hl] | [Hb Hl]].
        - apply (short_decimal_fits _ 9 Ha); [left; auto | rewrite len_cons; lia].
        - apply (short_decimal_fits _ 18 Ha); [right; auto | rewrite len_cons; lia]. }
      unfold decimal in *. cbn [decimalFrom] in Hfit |- *. lia.
    + split; [eexists; reflexivity | discriminate].
Qed.

Lemma Atoi_accepts s z :
  literal s = Some z ->
  - 2 ^ (bits IntSize - 1) <= z < 2 ^ (bits IntSize - 1) ->
  strconv.Atoi s = (z, None).
Proof.
  intros Hl Hfit.
  destruct (strconv.Atoi s) as [r [e|]] eqn:Hp;
    pose proof (Atoi_spec _ _ _ Hp) as Hs; cbv beta iota in Hs.
  - destruct Hs as (_ & Hout). destruct (Hout z Hl Hfit).
  - destruct Hs as (Hr & _). congruence.
Qed.

End AtoiFacts.

Section SignedConverters.
Context {rt : Runtime}.

Lemma castInt64_ParseInt s :
  castInt64 s =
    match strconv.ParseInt s strconv.Bits64 with
    | (_, Some err) => (0, Some err)
    | (i, None) => (i, None)
    end.
Proof. reflexivity. Qed.

Lemma castInt64_iff s r :
  castInt64 s = (r, None) <-> literal s = Some r /\ - 2 ^ 63 <= r < 2 ^ 63.
Proof.
  rewrite castInt64_ParseInt. split.
  - destruct (strconv.ParseInt s strconv.Bits64) as [i [e|]] eqn:Hp;
      intros H; inversion H; subst.
    apply (ParseInt_spec _ _ _ _ Hp).
  - intros [Hl Hfit]. rewrite (ParseInt_accepts s strconv.Bits64 r Hl Hfit). reflexivity.
Qed.

Lemma Atoi_iff s r :
  strconv.Atoi s = (r, None) <->
  literal s = Some r /\ - 2 ^ (bits IntSize - 1) <= r < 2 ^ (bits IntSize - 1).
Proof.
  split.
  - intros H. apply (Atoi_spec _ _ _ H).
  - intros [Hl Hfit]. apply Atoi_accepts; assumption.
Qed.

(** X12. [castInt64], the converter of [Int64] and [Int64Var], and
    [castDuration], which gives the same answers, accept exactly the
    signed decimal literals (an optional [+] or [-], then at least one
    digit, nothing else) whose number is in the range of [int64], and
    give that number. When they fail they give 0 and the [ParseInt]
    error about the whole string. *)
Theorem X12_castInt64_literal s :
  (forall r,
     castInt64 s = (r, None) <-> literal s = Some r /\ - 2 ^ 63 <= r < 2 ^ 63) /\
  (forall r e,
     castInt64 s = (r, Some e) -> r = 0 /\ exists k, e = NumError "ParseInt" s k) /\
  castDuration s = castInt64 s /\
  (forall name d (σ : State closure) z,
     environ σ !! name = Some s ->
     literal s = Some z -> - 2 ^ 63 <= z < 2 ^ 63 ->
     result (Int64 name d σ) = Returned z /\
     result (Duration name d σ) = Returned z).
Proof.
  assert (Hdur : castDuration s = castInt64 s).
  { unfold castDuration. destruct (castInt64 s) as [i [e|]] eqn:Hc; [|reflexivity].
    rewrite castInt64_ParseInt in Hc.
    destruct (strconv.ParseInt s strconv.Bits64) as [j [e'|]]; inversion Hc; reflexivity. }
  split; [apply castInt64_iff|]. split; [|split; [exact Hdur|]].
  - intros r e. rewrite castInt64_ParseInt.
    destruct (strconv.ParseInt s strconv.Bits64) as [i [e'|]] eqn:Hp;
      intros H; inversion H; subst.
    split; [reflexivity|]. apply (ParseInt_spec _ _ _ _ Hp).
  - intros name d σ z Hn Hl Hfit.
    assert (Hc : castInt64 s = (z, None)) by (apply castInt64_iff; auto).
    split.
    + unfold Int64. erewrite value_converted; [reflexivity | exact Hn | exact Hc].
    + unfold Duration. erewrite value_converted; [reflexivity | exact Hn|].
      rewrite Hdur. exact Hc.
Qed.

(** X13. [strconv.Atoi], the converter of [Int] and [IntVar], accepts
    exactly the signed decimal literals whose number is in the range of
    [int] on the platform, and gives that number, on its fast path for
    short strings as on its slow path. When it fails the error is an
    [Atoi] error about the whole string. *)
Theorem X13_Atoi_literal s :
  (forall r,
     strconv.Atoi s = (r, None) <->
     literal s = Some r /\ - 2 ^ (bits IntSize - 1) <= r < 2 ^ (bits IntSize - 1)) /\
  (forall r e,
     strconv.Atoi s = (r, Some e) -> exists k, e = NumError "Atoi" s k) /\
  (forall name d (σ : State closure) z,
     environ σ !! name = Some s ->
     literal s = Some z ->
     - 2 ^ (bits IntSize - 1) <= z < 2 ^ (bits IntSize - 1) ->
     result (Int name d σ) = Returned z).
Proof.
  split; [apply Atoi_iff|]. split.
  - intros r e H. apply (Atoi_spec _ _ _ H).
  - intros name d σ z Hn Hl Hfit. unfold Int.
    erewrite value_converted; [reflexivity | exact Hn | apply Atoi_accepts; assumption].
Qed.

(** X14. Where [int] has 64 bits, [Int] and [Int64] accept the same
    strings and give the same numbers. *)
Theorem X14_Int_is_Int64_on_64_bits s :
  IntSize = W64 ->
  (forall r, strconv.Atoi s = (r, None) <-> castInt64 s = (r, None)) /\
  (forall name d (σ : State closure) r,
     result (Int name d σ) = Returned r <-> result (Int64 name d σ) = Returned r).
Proof.
  intros Hw.
  assert (Hsame : forall r, strconv.Atoi s = (r, None) <-> castInt64 s = (r, None)).
  { intros r. rewrite Atoi_iff, castInt64_iff, Hw. reflexivity. }
  split; [exact Hsame|].
  intros name d σ r. unfold Int, Int64.
  destruct (environ σ !! name) as [v|] eqn:Hn.
  2:{ rewrite !(value_unset _ _ _ _ _ Hn). reflexivity. }
  assert (Hv : forall r, strconv.Atoi v = (r, None) <-> castInt64 v = (r, None)).
  { intros r'. rewrite Atoi_iff, castInt64_iff, Hw. reflexivity. }
  destruct (strconv.Atoi v) as [a [ea|]] eqn:Ha;
    destruct (castInt64 v) as [b [eb|]] eqn:Hb.
  - rewrite (value_rejected KInt _ _ _ _ _ _ _ Hn Ha),
      (value_rejected KInt64 _ _ _ _ _ _ _ Hn Hb).
    split; discriminate.
  - pose proof (proj2 (Hv b) eq_refl) as E. discriminate E.
  - pose proof (proj1 (Hv a) eq_refl) as E. discriminate E.
  - rewrite (value_converted KInt _ _ _ _ _ _ Hn Ha),
      (value_converted KInt64 _ _ _ _ _ _ Hn Hb).
    pose proof (proj1 (Hv a) eq_refl) as E. inversion E; subst. reflexivity.
Qed.

(** X15. Every converter, when it succeeds, gives a value of its Go
    type: an integer in the range of [int], [int64], [uint], [uint64]
    or [time.Duration]. So does every accessor whose default is one. *)
Theorem X15_converted_values_are_in_range :
  (forall T s v, converter T s = (v, None) -> representable T v) /\
  (forall T name (d : goType T) (σ : State closure) v,
     representable T d ->
     result (accessor T name d σ) = Returned v ->
     representable T v).
Proof.
  assert (Hconv : forall T s v, converter T s = (v, None) -> representable T v).
  { intros T s v. destruct T; simpl; try (intros; exact I).
    - intros H. apply (Atoi_spec _ _ _ H).
    - intros H. apply castInt64_iff in H. apply H.
    - unfold castUint, castUint64.
      destruct (strconv.ParseUint s strconv.Bits64) as [n [e|]]; intros H; inversion H.
      unfold to_unsigned. apply Z.mod_pos_bound. destruct IntSize; reflexivity.
    - unfold castUint64.
      destruct (strconv.ParseUint s strconv.Bits64) as [n [e|]] eqn:Hp;
        intros H; inversion H; subst.
      destruct (ParseUint_spec _ _ _ _ Hp) as (_ & _ & _ & Hr).
      simpl strconv.width in Hr. lia.
    - unfold castDuration. destruct (castInt64 s) as [i [e|]] eqn:Hc;
        intros H; inversion H; subst.
      apply castInt64_iff in Hc. apply Hc. }
  split; [exact Hconv|].
  intros T name d σ v Hd. rewrite accessor_value.
  destruct (environ σ !! name) as [s|] eqn:Hn.
  - destruct (converter T s) as [w [e|]] eqn:Hc.
    + rewrite (value_rejected _ _ _ _ _ _ _ _ Hn Hc). discriminate.
    + rewrite (value_converted _ _ _ _ _ _ _ Hn Hc). intros H. inversion H; subst.
      apply (Hconv _ _ _ Hc).
  - rewrite (value_unset _ _ _ _ _ Hn). intros H. inversion H; subst. exact Hd.
Qed.

End SignedConverters.

Lemma X14_witness :
  IntSize (Runtime := amd64) = W64 /\
  strconv.Atoi (rt := amd64) "-42" = (-42, None) /\
  castInt64 (rt := amd64) "-42" = (-42, None).
Proof.
  split; [reflexivity|].
  assert (H : strconv.Atoi (rt := amd64) "-42" = (-42, None)) by reflexivity.
  split; [exact H|].
  exact (proj1 (proj1 (@X14_Int_is_Int64_on_64_bits amd64 "-42" eq_refl) (-42)) H).
Defined.

(** ** Distinct destinations, and Parse after a failure *)

Section ParseRetry.
Context {rt : Runtime}.
Implicit Types (σ : State closure) (fn : closure) (fns : list closure).
Implicit Types (env : gmap string string) (h : gmap loc val) (l : loc).

Lemma Parse_keeps σ :
  environ (final (Parse σ)) = environ σ /\
  vars (final (Parse σ)) = vars σ /\
  forall l, l ∉ map fn_addr (vars σ) -> heap (final (Parse σ)) !! l = heap σ !! l.
Proof.
  destruct (first_failure (environ σ) (vars σ))
    as [Hall | (pre & fn & post & e & Hq & Hpre & He)].
  - rewrite (Parse_resolving σ Hall). cbn [final environ heap vars].
    repeat split. intros l Hl. apply assignAll_other, Hl.
  - rewrite (Parse_failing σ pre fn post e Hq Hpre He). cbn [final environ heap vars].
    repeat split. intros l Hl. apply assignAll_other.
    rewrite Hq, map_app in Hl. intros Hin. apply Hl, elem_of_app. left. exact Hin.
Qed.

Lemma assignAll_agree env fns h1 h2 :
  (forall l, l ∉ map fn_addr fns -> h1 !! l = h2 !! l) ->
  assignAll env fns h1 = assignAll env fns h2.
Proof.
  intros Hout. apply map_eq. intros l.
  destruct (decide (l ∈ map fn_addr fns)) as [Hin|Hnot].
  - apply assignAll_lookup, Hin.
  - rewrite !assignAll_other by exact Hnot. apply Hout, Hnot.
Qed.

Lemma binding_split fn fns :
  fn ∈ fns -> exists pre post, fns = pre ++ fn :: post.
Proof. intros Hin. apply list_elem_of_split in Hin. exact Hin. Qed.

(** X16. When no two queued bindings share a destination and every
    binding resolves, Parse returns and every binding's destination
    holds that binding's own value: the default where its variable is
    unset, the converted value where it is set. *)
Theorem X16_distinct_destinations σ :
  NoDup (map fn_addr (vars σ)) ->
  Forall (fun fn => resolves (environ σ) fn = true) (vars σ) ->
  result (Parse σ) = Returned tt /\
  forall fn, fn ∈ vars σ ->
    heap (final (Parse σ)) !! fn_addr fn = Some (assigned (environ σ) fn).
Proof.
  intros Hnd Hall. rewrite (Parse_resolving σ Hall). cbn [final result heap].
  split; [reflexivity|]. intros fn Hin.
  destruct (binding_split fn _ Hin) as (pre & post & Hq). rewrite Hq.
  apply assignAll_last_writer.
  rewrite Hq, map_app in Hnd. apply NoDup_app in Hnd as (_ & _ & Hnd).
  simpl in Hnd. apply NoDup_cons in Hnd as [Hout _]. exact Hout.
Qed.

(** X17. A Parse that panicked can be retried: the queue is intact, and
    when Parse is called again after the environment has been changed
    it does what a first Parse in the changed environment does and ends
    the same way; when it returns, it leaves exactly the state a first
    Parse in the changed environment leaves. *)
Theorem X17_parse_retry σ env :
  let again := Parse (withEnviron env (final (Parse σ))) in
  let first := Parse (withEnviron env σ) in
  trace again = trace first /\
  result again = result first /\
  (result again = Returned tt -> final again = final first).
Proof.
  cbv zeta. destruct (Parse_keeps σ) as (_ & Hvars & Hframe).
  set (σa := withEnviron env (final (Parse σ))).
  set (σb := withEnviron env σ).
  assert (Hva : vars σa = vars σb) by exact Hvars.
  assert (Hea : environ σa = environ σb) by reflexivity.
  destruct (first_failure (environ σb) (vars σb))
    as [Hall | (pre & fn & post & e & Hq & Hpre & He)].
  - assert (Halla : Forall (fun fn => resolves (environ σa) fn = true) (vars σa))
      by (rewrite Hva, Hea; exact Hall).
    rewrite (Parse_resolving σa Halla), (Parse_resolving σb Hall).
    cbn [trace final result]. rewrite Hva, Hea.
    split; [reflexivity|]. split; [reflexivity|]. intros _. f_equal.
    apply assignAll_agree. intros l Hl. apply Hframe. exact Hl.
  - assert (Hqa : vars σa = pre ++ fn :: post) by (rewrite Hva; exact Hq).
    assert (Hprea : Forall (fun fn => resolves (environ σa) fn = true) pre)
      by (rewrite Hea; exact Hpre).
    assert (Hea' : resolve (environ σa) fn = inr e) by (rewrite Hea; exact He).
    rewrite (Parse_failing σa pre fn post e Hqa Hprea Hea'),
      (Parse_failing σb pre fn post e Hq Hpre He).
    cbn [trace final result]. rewrite Hea.
    split; [reflexivity|]. split; [reflexivity|]. discriminate.
Qed.

End ParseRetry.

Lemma X16_witness :
  NoDup (map fn_addr (vars Ex.fooIsTen)) /\
  Forall (fun fn => resolves (environ Ex.fooIsTen) fn = true) (vars Ex.fooIsTen) /\
  heap (final (Parse (rt := amd64) Ex.fooIsTen)) !! Ex.B = Some (VInt 2).
Proof.
  assert (Hnd : NoDup (map fn_addr (vars Ex.fooIsTen))).
  { apply NoDup_cons. split; [|apply NoDup_singleton].
    intros Hin. apply list_elem_of_singleton in Hin. discriminate Hin. }
  assert (Hall : Forall (fun fn => resolves (environ Ex.fooIsTen) fn = true)
                   (vars Ex.fooIsTen)) by (repeat constructor).
  split; [exact Hnd|]. split; [exact Hall|].
  destruct (@X16_distinct_destinations amd64 Ex.fooIsTen Hnd Hall) as [_ Hcells].
  exact (Hcells (pending (Register KInt Ex.B "BAR" 2))
           (list_elem_of_further _ _ _ (list_elem_of_here _ _))).
Defined.

(** ** Narrowing to [uint], and text *)

Section Narrowing.
Context {rt : Runtime}.

Lemma castUint64_iff s r :
  castUint64 s = (r, None) <->
  s <> EmptyString /\ allDigits s = true /\ decimal s < 2 ^ 64 /\ r = decimal s.
Proof.
  unfold castUint64. split.
  - destruct (strconv.ParseUint s strconv.Bits64) as [n [e|]] eqn:Hp;
      intros H; inversion H; subst.
    destruct (ParseUint_spec _ _ _ _ Hp) as (Hne & Ha & Hr & Hrange).
    simpl strconv.width in Hrange. repeat split; try assumption. lia.
  - intros (Hne & Ha & Hfit & ->).
    rewrite (ParseUint_accepts s strconv.Bits64 Hne Ha);
      [reflexivity | simpl strconv.width; lia].
Qed.

(** X18. [castUint], the converter of [Uint] and [UintVar], accepts
    exactly what [castUint64] accepts, the non-empty strings of digits
    whose number is below 2^64, and gives that number modulo 2^32 or
    2^64, the width of [uint]: a number that does not fit [uint] is
    never rejected, it wraps around. *)
Theorem X18_castUint_wraps s :
  (forall r,
     castUint s = (r, None) <->
     s <> EmptyString /\ allDigits s = true /\ decimal s < 2 ^ 64 /\
     r = decimal s mod 2 ^ bits IntSize) /\
  ((castUint s).2 = None <-> (castUint64 s).2 = None) /\
  (forall name d (σ : State closure),
     environ σ !! name = Some s ->
     s <> EmptyString -> allDigits s = true -> decimal s < 2 ^ 64 ->
     result (Uint name d σ) = Returned (decimal s mod 2 ^ bits IntSize)).
Proof.
  assert (Hiff : forall r,
     castUint s = (r, None) <->
     s <> EmptyString /\ allDigits s = true /\ decimal s < 2 ^ 64 /\
     r = decimal s mod 2 ^ bits IntSize).
  { intros r. unfold castUint. split.
    - destruct (castUint64 s) as [n [e|]] eqn:Hc; intros H; inversion H; subst.
      apply castUint64_iff in Hc as (Hne & Ha & Hfit & ->).
      repeat split; assumption.
    - intros (Hne & Ha & Hfit & ->).
      rewrite (proj2 (castUint64_iff s (decimal s))) by (repeat split; assumption).
      reflexivity. }
  split; [exact Hiff|]. split.
  - unfold castUint. destruct (castUint64 s) as [n [e|]]; simpl; split; auto.
  - intros name d σ Hn Hne Ha Hfit. unfold Uint.
    erewrite value_converted; [reflexivity | exact Hn|].
    apply Hiff. repeat split; assumption.
Qed.

Lemma text_resolves env c :
  reg_T c = KString -> resolves env (pending c) = true.
Proof.
  destruct c as [T a n d]. simpl. intros ->.
  unfold resolves, resolve. simpl. destruct (env !! n); reflexivity.
Qed.

(** X19. Text never fails: [String] returns the value of the variable
    when it is set, even to the empty string, and the default when it
    is not, in every environment; and a Parse over bindings registered
    with [StringVar] alone always returns. *)
Theorem X19_text_never_panics :
  (forall name d (σ : State closure),
     result (String name d σ) = Returned (default d (environ σ !! name))) /\
  (forall cs (σ : State closure),
     vars σ = [] ->
     Forall (fun c => reg_T c = KString) cs ->
     result ((registerAll cs;; Parse) σ) = Returned tt).
Proof.
  split.
  - intros name d σ. unfold String.
    destruct (environ σ !! name) as [s|] eqn:Hn.
    + erewrite value_converted; [reflexivity | exact Hn | reflexivity].
    + rewrite (value_unset _ _ _ _ _ Hn). reflexivity.
  - intros cs σ Hq Htext.
    unfold mbind, M_bind, bind. rewrite registerAll_run. cbn [trace final result].
    rewrite Hq. cbn [app]. set (σ1 := mkState _ _ _).
    assert (Hall : Forall (fun fn => resolves (environ σ1) fn = true) (vars σ1)).
    { subst σ1. cbn [environ vars]. apply Forall_fmap.
      eapply Forall_impl; [exact Htext|]. intros c Hc. apply text_resolves, Hc. }
    rewrite (Parse_resolving σ1 Hall). reflexivity.
Qed.

End Narrowing.
